(** * ci-metrics-bigquery: the record model and the two dispatchers

    A shallow embedding of [pkg/metrics/bigquery.go] and
    [pkg/metrics/export.go].  The BigQuery client, the object store, the
    file system's failure modes and the JSON text rendering are external
    collaborators: they enter as type-class interfaces, and every theorem
    holds for all their instances.  What the repository itself decides is
    embedded concretely: the struct tags of the two union records, the
    file-name predicate, the already-exists test, and the per-category
    skip / create / write control flow with its error wrapping. *)

From Stdlib Require Import ZArith String Ascii List Bool Lia Permutation.
From stdpp Require Import gmap strings list fin_maps.
Import ListNotations.

Local Open Scope string_scope.
Local Open Scope list_scope.
Local Open Scope Z_scope.

(** * Part I: the embedding *)

(** ** Go strings

    A Go string is a byte sequence; [string] (a list of [ascii]) is the same
    thing.  [+:+] is concatenation. *)

(** [strings.HasSuffix(s, suffix)]:
    [len(s) >= len(suffix) && s[len(s)-len(suffix):] == suffix]. *)
Definition strings_HasSuffix (s suffix : string) : bool :=
  (String.length suffix <=? String.length s)%nat &&
  String.eqb
    (substring (String.length s - String.length suffix)
               (String.length suffix) s)
    suffix.

(** ** The file-name predicate (bigquery.go, lines 21-23 and 340-342) *)

Definition MetricsFileName : string := "ci-operator-metrics.json".

Definition IsMetricsFile (name : string) : bool :=
  strings_HasSuffix name MetricsFileName.

(** ** Go errors

    An [error] value is [option GoError], [None] being [nil].  The code
    builds errors only with [fmt.Errorf("...: %w", err)], which wraps, and
    inspects them only with [errors.As] for a [*googleapi.Error]. *)

Inductive GoError : Type :=
| ErrOther (msg : string)
| ErrGoogleAPI (Code : Z) (msg : string)
| ErrWrap (prefix : string) (err : GoError).

Inductive result (A : Type) : Type :=
| Ok (a : A)
| Fail (e : GoError).
Arguments Ok {A} a.
Arguments Fail {A} e.

(** [errors.As(err, &apiErr)] for [apiErr : *googleapi.Error]: the first
    error of that type along the wrap chain; the result is its [Code]. *)
Fixpoint errors_As_googleapi (err : GoError) : option Z :=
  match err with
  | ErrOther _ => None
  | ErrGoogleAPI code _ => Some code
  | ErrWrap _ inner => errors_As_googleapi inner
  end.

Definition http_StatusConflict : Z := 409.

(** bigquery.go, lines 346-355. *)
Definition isAlreadyExistsError (err : option GoError) : bool :=
  match err with
  | None => false
  | Some e =>
      match errors_As_googleapi e with
      | Some code => code =? http_StatusConflict
      | None => false
      end
  end.

(** ** Field values and [encoding/json]'s struct encoding

    The union records carry their serialization rule in struct tags.  A
    field is described by its JSON key, its [omitempty] option and its value;
    [isEmptyValue] is the library's test for what [omitempty] drops: a zero
    number, [false], an empty string, an empty (or nil) map.  A value of
    struct type, such as [time.Time], is never empty.

    [float64] is the IEEE-754 bit pattern; [int] is 64 bits wide and stored
    as its value; [time.Time] is an instant counted from the zero time, so
    that the zero value of each type is [0]. *)

Abbreviation float64 := Z (only parsing).
Abbreviation int := Z (only parsing).
Abbreviation Time := Z (only parsing).

(** A value decoded into [any]. *)
#[local] Set Warnings "-register-all".
Inductive GoAny : Type :=
| AnyNil
| AnyBool (b : bool)
| AnyFloat64 (bits : float64)
| AnyString (s : string)
| AnySlice (l : list GoAny)
| AnyMap (m : list (string * GoAny)).
#[local] Set Warnings "register-all".

Inductive GoValue : Type :=
| VString (s : string)
| VFloat64 (bits : float64)
| VInt (n : int)
| VBool (b : bool)
| VTime (t : Time)
| VMap (m : list (string * GoAny)).

(** [v.Float() == 0]: both signed zeros, that is every bit but the sign
    bit is clear. *)
Definition float64_is_zero (bits : float64) : bool :=
  Z.land bits (Z.ones 63) =? 0.

Definition isEmptyValue (v : GoValue) : bool :=
  match v with
  | VString s => (String.length s =? 0)%nat
  | VFloat64 bits => float64_is_zero bits
  | VInt n => n =? 0
  | VBool b => negb b
  | VTime _ => false
  | VMap m => (List.length m =? 0)%nat
  end.

Definition is_struct (v : GoValue) : bool :=
  match v with VTime _ => true | _ => false end.

Record StructField : Type := Field {
  json_name : string;
  omitempty : bool;
  field_value : GoValue
}.

(** A field is left out when it is tagged [omitempty] and empty. *)
Definition kept (f : StructField) : bool :=
  negb (omitempty f && isEmptyValue (field_value f)).

(** The members of the JSON object a struct is encoded as, in declaration
    order. *)
Definition json_members (fields : list StructField) : list (string * GoValue) :=
  map (fun f => (json_name f, field_value f)) (List.filter kept fields).

Definition json_keys (fields : list StructField) : list string :=
  map fst (json_members fields).

(** ** The union records (bigquery.go, lines 25-59) *)

Module LeaseEventUnion.
Record t : Type := Build {
  LeaseName : string;
  Slice : string;
  Region : string;
  RawLeaseName : string;
  AcquisitionDurationSeconds : float64;
  ReleaseDurationSeconds : float64;
  LeasesRemainingAtAcquisition : int;
  LeasesAvailableAtRelease : int;
  LeasesTotal : int;
  Released : bool;
  Error : string;
  Timestamp : Time
}.

(** [LeaseEventUnion{}] *)
Definition zero : t := Build "" "" "" "" 0 0 0 0 0 false "" 0.

Definition fields (r : t) : list StructField :=
  [ Field "name" true (VString (LeaseName r));
    Field "slice" true (VString (Slice r));
    Field "region" true (VString (Region r));
    Field "raw_lease_name" true (VString (RawLeaseName r));
    Field "acquisition_duration_seconds" true (VFloat64 (AcquisitionDurationSeconds r));
    Field "release_duration_seconds" true (VFloat64 (ReleaseDurationSeconds r));
    Field "leases_remaining_at_acquisition" true (VInt (LeasesRemainingAtAcquisition r));
    Field "leases_available_at_release" true (VInt (LeasesAvailableAtRelease r));
    Field "leases_total" true (VInt (LeasesTotal r));
    Field "released" true (VBool (Released r));
    Field "error" true (VString (Error r));
    Field "timestamp" false (VTime (Timestamp r)) ].

(** The assignment [r.LeasesTotal = n]. *)
Definition set_LeasesTotal (n : int) (r : t) : t :=
  Build (LeaseName r) (Slice r) (Region r) (RawLeaseName r)
        (AcquisitionDurationSeconds r) (ReleaseDurationSeconds r)
        (LeasesRemainingAtAcquisition r) (LeasesAvailableAtRelease r)
        n (Released r) (Error r) (Timestamp r).
End LeaseEventUnion.

Module ImageEventUnion.
Record t : Type := Build {
  Namespace : string;
  ImageStreamName : string;
  FullName : string;
  TagName : string;
  FullTagName : string;
  SourceImage : string;
  SourceImageKind : string;
  StartTime : Time;
  CompletionTime : Time;
  DurationSeconds : float64;
  RetryCount : int;
  Success : bool;
  Error : string;
  ImageStreamDetails : list (string * GoAny);
  AdditionalContext : list (string * GoAny);
  Timestamp : Time
}.

(** [ImageEventUnion{}] *)
Definition zero : t := Build "" "" "" "" "" "" "" 0 0 0 0 false "" [] [] 0.

Definition fields (r : t) : list StructField :=
  [ Field "namespace" true (VString (Namespace r));
    Field "image_stream_name" true (VString (ImageStreamName r));
    Field "full_name" true (VString (FullName r));
    Field "tag_name" true (VString (TagName r));
    Field "full_tag_name" true (VString (FullTagName r));
    Field "source_image" true (VString (SourceImage r));
    Field "source_image_kind" true (VString (SourceImageKind r));
    Field "start_time" true (VTime (StartTime r));
    Field "completion_time" true (VTime (CompletionTime r));
    Field "duration_seconds" true (VFloat64 (DurationSeconds r));
    Field "retry_count" true (VInt (RetryCount r));
    Field "success" true (VBool (Success r));
    Field "error" true (VString (Error r));
    Field "image_stream_details" true (VMap (ImageStreamDetails r));
    Field "additional_context" true (VMap (AdditionalContext r));
    Field "timestamp" false (VTime (Timestamp r)) ].
End ImageEventUnion.

(** The field lists of the two union records. *)
Definition union_record_fields (fields : list StructField) : Prop :=
  (exists r, fields = LeaseEventUnion.fields r) \/
  (exists r, fields = ImageEventUnion.fields r).

(** A field that was never assigned holds the zero value of its type. *)
Definition is_zero_value (v : GoValue) : bool :=
  match v with
  | VString s => String.eqb s ""
  | VFloat64 bits => bits =? 0
  | VInt n => n =? 0
  | VBool b => negb b
  | VTime t => t =? 0
  | VMap m => match m with [] => true | _ => false end
  end.

(** "Field absence is distinguishable from a zero value": an unset optional
    field is not written, and a record in which a field was set to zero is
    written differently from one in which it was never set. *)
Definition absence_distinguishable_from_zero : Prop :=
  (forall fields f,
     union_record_fields fields -> In f fields ->
     omitempty f = true -> is_zero_value (field_value f) = true ->
     ~ In (json_name f) (json_keys fields))
  /\
  (forall r : LeaseEventUnion.t,
     LeaseEventUnion.LeasesTotal r = 0 ->
     json_members (LeaseEventUnion.fields (LeaseEventUnion.set_LeasesTotal 0 r))
     <> json_members (LeaseEventUnion.fields r)).

(** ** The pass-through records and the decoded document

    [Event], [NodeEvent], [BuildEvent], [PodLifecycleMetricsEvent] and
    [InsightsEvent] are declared by the event producer
    ([github.com/openshift/ci-tools/pkg/metrics]); the loader only routes
    them. *)

Class Shapes : Type := {
  Event : Type;
  NodeEvent : Type;
  BuildEvent : Type;
  PodLifecycleMetricsEvent : Type;
  InsightsEvent : Type
}.

(** A slice [[]*T] is a list of pointers; [None] is the nil pointer that a
    JSON [null] element decodes to. *)
Abbreviation slice_of A := (list (option A)) (only parsing).

(** bigquery.go, lines 61-70. *)
Record MetricsData `{Shapes} : Type := {
  Events : slice_of Event;
  Images : slice_of ImageEventUnion.t;
  Leases : slice_of LeaseEventUnion.t;
  Nodes : slice_of NodeEvent;
  OpenshiftBuilds : slice_of BuildEvent;
  Pods : slice_of PodLifecycleMetricsEvent;
  TestPlatformInsights : slice_of InsightsEvent
}.

(** What travels in an [interface{}] argument ([inserter.Put]'s source,
    [exportTable]'s [data]): a slice together with its dynamic type. *)
Inductive TableData `{Shapes} : Type :=
| ImageRows (v : slice_of ImageEventUnion.t)
| NodeRows (v : slice_of NodeEvent)
| LeaseRows (v : slice_of LeaseEventUnion.t)
| BuildRows (v : slice_of BuildEvent)
| PodRows (v : slice_of PodLifecycleMetricsEvent)
| InsightsRows (v : slice_of InsightsEvent)
| EventRows (v : slice_of Event)
| OtherData.

Definition len `{Shapes} (d : TableData) : nat :=
  match d with
  | ImageRows v => length v
  | NodeRows v => length v
  | LeaseRows v => length v
  | BuildRows v => length v
  | PodRows v => length v
  | InsightsRows v => length v
  | EventRows v => length v
  | OtherData => 0%nat
  end.

(** The struct a schema is inferred from. *)
Inductive Shape : Type :=
| ShImageEventUnion | ShNodeEvent | ShInsightsEvent | ShLeaseEventUnion
| ShBuildEvent | ShPodLifecycleMetricsEvent | ShEvent.

(** ** Effects

    Every call that leaves the process is recorded, with its response, in
    the order it is made.  An operation threads a state (the BigQuery
    client, or the files on disk) and returns a [Run]. *)

Inductive Call `{Shapes} : Type :=
| TableCreate (table : string) (resp : option GoError)
| InserterPut (table : string) (rows : TableData) (resp : option GoError)
| MkdirAll (dir : string) (resp : option GoError)
| OsCreate (path : string) (resp : option GoError)
| Encode (path : string) (resp : result string).

Record Run `{Shapes} (S A : Type) : Type := MkRun {
  final : S;
  calls : list Call;
  outcome : A
}.
Arguments MkRun {_ S A} final calls outcome.
Arguments final {_ S A} r.
Arguments calls {_ S A} r.
Arguments outcome {_ S A} r.

Definition Op `{Shapes} (S A : Type) : Type := S -> Run S A.

Definition ret `{Shapes} {S A} (a : A) : Op S A :=
  fun s => MkRun s [] a.

Definition bind `{Shapes} {S A B} (m : Op S A) (k : A -> Op S B) : Op S B :=
  fun s =>
    let r := m s in
    let r' := k (outcome r) (final r) in
    MkRun (final r') (calls r ++ calls r') (outcome r').

(** [fmt.Errorf(prefix + "%w", err)] *)
Definition Errorf (prefix : string) (err : GoError) : option GoError :=
  Some (ErrWrap prefix err).

(** [if err := m; err != nil { return fmt.Errorf(prefix + "%w", err) }],
    followed by [rest]. *)
Definition guard `{Shapes} {S} (m : Op S (option GoError)) (prefix : string)
    (rest : Op S (option GoError)) : Op S (option GoError) :=
  bind m (fun err =>
    match err with
    | Some e => ret (Errorf prefix e)
    | None => rest
    end).

Notation "'check' m 'or' prefix ;; rest" := (guard m prefix rest)
  (at level 10, m at level 9, prefix at level 9, rest at level 200,
   format "'[v' 'check'  m  'or'  prefix  ;;  '/' rest ']'").

(** ** The BigQuery client (external)

    Schema inference is a pure function of the struct; creating a table and
    inserting rows act on the client and may fail. *)

Class Warehouse `{Shapes} : Type := {
  Client : Type;
  Schema : Type;
  bigquery_InferSchema : Shape -> result Schema;
  table_Create : string -> Schema -> Client -> Client * option GoError;
  inserter_Put : string -> TableData -> Client -> Client * option GoError
}.

Section Loader.
Context `{Shapes} `{!Warehouse}.

Definition Create (table : string) (schema : Schema) : Op Client (option GoError) :=
  fun c => let (c', resp) := table_Create table schema c in
           MkRun c' [TableCreate table resp] resp.

Definition Put (table : string) (rows : TableData) : Op Client (option GoError) :=
  fun c => let (c', resp) := inserter_Put table rows c in
           MkRun c' [InserterPut table rows resp] resp.

(** The body shared by [loadImages], [loadNodes], [loadInsights],
    [loadLeases], [loadBuilds], [loadPods] and [loadEvents]
    (bigquery.go, lines 144-338): the seven functions differ in the table
    name, the struct the schema is inferred from, and the noun of the
    insert error. *)
Definition loadTable (table : string) (shape : Shape) (noun : string)
    (rows : TableData) : Op Client (option GoError) :=
  if (len rows =? 0)%nat then ret None
  else
    match bigquery_InferSchema shape with
    | Fail e => ret (Errorf "failed to infer schema: " e)
    | Ok schema =>
        let insert :=
          check (Put table rows) or ("failed to insert " +:+ noun +:+ ": ") ;;
          ret None in
        bind (Create table schema) (fun err =>
          match err with
          | Some e =>
              if negb (isAlreadyExistsError err)
              then ret (Errorf "failed to create table: " e)
              else insert
          | None => insert
          end)
    end.

Definition loadImages (images : slice_of ImageEventUnion.t) :=
  loadTable "images" ShImageEventUnion "images" (ImageRows images).
Definition loadNodes (nodes : slice_of NodeEvent) :=
  loadTable "nodes" ShNodeEvent "nodes" (NodeRows nodes).
Definition loadInsights (insights : slice_of InsightsEvent) :=
  loadTable "test_platform_insights" ShInsightsEvent "insights" (InsightsRows insights).
Definition loadLeases (leases : slice_of LeaseEventUnion.t) :=
  loadTable "leases" ShLeaseEventUnion "leases" (LeaseRows leases).
Definition loadBuilds (builds : slice_of BuildEvent) :=
  loadTable "openshift_builds" ShBuildEvent "builds" (BuildRows builds).
Definition loadPods (pods : slice_of PodLifecycleMetricsEvent) :=
  loadTable "pods" ShPodLifecycleMetricsEvent "pods" (PodRows pods).
Definition loadEvents (events : slice_of Event) :=
  loadTable "events" ShEvent "events" (EventRows events).

(** bigquery.go, lines 93-119. *)
Definition LoadMetricsData (data : MetricsData) : Op Client (option GoError) :=
  check (loadImages (Images data)) or "failed to load images: " ;;
  check (loadNodes (Nodes data)) or "failed to load nodes: " ;;
  check (loadInsights (TestPlatformInsights data)) or "failed to load insights: " ;;
  check (loadLeases (Leases data)) or "failed to load leases: " ;;
  check (loadBuilds (OpenshiftBuilds data)) or "failed to load builds: " ;;
  check (loadPods (Pods data)) or "failed to load pods: " ;;
  check (loadEvents (Events data)) or "failed to load events: " ;;
  ret None.
End Loader.

(** ** The file system and the JSON encoder (external)

    Files are a finite map from path to content.  Whether a directory or a
    file can be created is decided by the environment, as a function of the
    path.  [json.Encoder.Encode] marshals one value and hands the text and a
    newline to the file in one write; a marshalling failure writes nothing.
    Whether that write succeeds is decided by the environment too, from the
    path, what the file holds and the bytes to write: [None] when all of
    them are written, [Some (n, err)] when the write fails with [err] after
    [n] of them.  In the trace an [Encode] entry carries the text that was
    marshalled, or the marshalling error.  The text of a pass-through record
    and the text of a JSON object are the encoder's business. *)

Class FileSystem : Type := {
  filepath_Join : string -> string -> string;
  os_MkdirAll : string -> option GoError;
  os_Create : string -> option GoError;
  file_Write : string -> string -> string -> option (nat * GoError)
}.

Class JSONEncoder `{Shapes} : Type := {
  render_object : list (string * GoValue) -> result string;
  Marshal_NodeEvent : NodeEvent -> result string;
  Marshal_BuildEvent : BuildEvent -> result string;
  Marshal_PodLifecycleMetricsEvent : PodLifecycleMetricsEvent -> result string;
  Marshal_InsightsEvent : InsightsEvent -> result string;
  Marshal_Event : Event -> result string
}.

Definition newline : string := String (ascii_of_nat 10) "".

Notation "'unless_empty' v 'check' m 'or' prefix ;; rest" :=
  (if (0 <? length v)%nat then guard m prefix rest else rest)
  (at level 10, v at level 9, m at level 9, prefix at level 9, rest at level 200,
   format "'[v' 'unless_empty'  v  'check'  m  'or'  prefix  ;;  '/' rest ']'").

Section Exporter.
Context `{Shapes} `{!FileSystem} `{!JSONEncoder}.

Definition Marshal_LeaseEventUnion (r : LeaseEventUnion.t) : result string :=
  render_object (json_members (LeaseEventUnion.fields r)).

Definition Marshal_ImageEventUnion (r : ImageEventUnion.t) : result string :=
  render_object (json_members (ImageEventUnion.fields r)).

(** Marshalling through a pointer: nil is [null]. *)
Definition Marshal_ptr {A} (marshal : A -> result string) (item : option A)
    : result string :=
  match item with
  | None => Ok "null"
  | Some a => marshal a
  end.

Definition mkdirAll (dir : string) : Op (gmap string string) (option GoError) :=
  fun fs => MkRun fs [MkdirAll dir (os_MkdirAll dir)] (os_MkdirAll dir).

(** [os.Create]: the file is created, or truncated if it exists. *)
Definition create (path : string) : Op (gmap string string) (option GoError) :=
  fun fs =>
    match os_Create path with
    | Some e => MkRun fs [OsCreate path (Some e)] (Some e)
    | None => MkRun (<[path := ""]> fs) [OsCreate path None] None
    end.

(** [encoder.Encode(item)] on the file opened at [path]: the error is the
    marshalling error or the error of the write. *)
Definition encode (path : string) (item : result string)
    : Op (gmap string string) (option GoError) :=
  fun fs =>
    match item with
    | Fail e => MkRun fs [Encode path (Fail e)] (Some e)
    | Ok text =>
        let held := default "" (fs !! path) in
        match file_Write path held (text +:+ newline) with
        | None =>
            MkRun (<[path := held +:+ text +:+ newline]> fs)
                  [Encode path (Ok text)] None
        | Some (n, e) =>
            MkRun (<[path := held +:+ substring 0 n (text +:+ newline)]> fs)
                  [Encode path (Ok text)] (Some e)
        end
    end.

(** [for _, item := range v { if err := encoder.Encode(item); ... } return nil] *)
Fixpoint encode_range (path : string) (items : list (result string))
    : Op (gmap string string) (option GoError) :=
  match items with
  | [] => ret None
  | item :: rest =>
      check (encode path item) or "failed to encode item: " ;;
      encode_range path rest
  end.

(** export.go, lines 96-152. *)
Definition exportTable (exportDir filename : string) (data : TableData)
    : Op (gmap string string) (option GoError) :=
  let filePath := filepath_Join exportDir filename in
  check (create filePath) or ("failed to create " +:+ filename +:+ ": ") ;;
  match data with
  | ImageRows v => encode_range filePath (map (Marshal_ptr Marshal_ImageEventUnion) v)
  | NodeRows v => encode_range filePath (map (Marshal_ptr Marshal_NodeEvent) v)
  | LeaseRows v => encode_range filePath (map (Marshal_ptr Marshal_LeaseEventUnion) v)
  | BuildRows v => encode_range filePath (map (Marshal_ptr Marshal_BuildEvent) v)
  | PodRows v => encode_range filePath (map (Marshal_ptr Marshal_PodLifecycleMetricsEvent) v)
  | InsightsRows v => encode_range filePath (map (Marshal_ptr Marshal_InsightsEvent) v)
  | EventRows v => encode_range filePath (map (Marshal_ptr Marshal_Event) v)
  | OtherData => ret (Some (ErrOther "unsupported data type for export"))
  end.

(** export.go, lines 38-93: what [ExportMetricsFromGCS] does once the
    document is decoded. *)
Definition exportMetricsData (data : MetricsData) (exportDir : string)
    : Op (gmap string string) (option GoError) :=
  check (mkdirAll exportDir) or "failed to create export directory: " ;;
  unless_empty (Images data)
    check (exportTable exportDir "images.json" (ImageRows (Images data)))
    or "failed to export images: " ;;
  unless_empty (Nodes data)
    check (exportTable exportDir "nodes.json" (NodeRows (Nodes data)))
    or "failed to export nodes: " ;;
  unless_empty (Leases data)
    check (exportTable exportDir "leases.json" (LeaseRows (Leases data)))
    or "failed to export leases: " ;;
  unless_empty (OpenshiftBuilds data)
    check (exportTable exportDir "openshift_builds.json" (BuildRows (OpenshiftBuilds data)))
    or "failed to export builds: " ;;
  unless_empty (Pods data)
    check (exportTable exportDir "pods.json" (PodRows (Pods data)))
    or "failed to export pods: " ;;
  unless_empty (TestPlatformInsights data)
    check (exportTable exportDir "test_platform_insights.json"
             (InsightsRows (TestPlatformInsights data)))
    or "failed to export insights: " ;;
  unless_empty (Events data)
    check (exportTable exportDir "events.json" (EventRows (Events data)))
    or "failed to export events: " ;;
  ret None.
End Exporter.

(** ** Reading the document (external): the object store and the decoder *)

Class Source `{Shapes} : Type := {
  storage_NewClient : option GoError;
  Object_NewReader : string -> string -> result string;
  json_Decode : string -> result MetricsData
}.

Section FromGCS.
Context `{Shapes} `{!Source}.

(** [LoadFromGCS] (bigquery.go, lines 122-142). *)
Definition LoadFromGCS `{!Warehouse} (bucket object : string)
    : Op Client (option GoError) :=
  match storage_NewClient with
  | Some e => ret (Errorf "failed to create GCS client: " e)
  | None =>
      match Object_NewReader bucket object with
      | Fail e => ret (Errorf "failed to open GCS object: " e)
      | Ok reader =>
          match json_Decode reader with
          | Fail e => ret (Errorf "failed to decode JSON from GCS: " e)
          | Ok data => LoadMetricsData data
          end
      end
  end.

(** [ExportMetricsFromGCS] (export.go, lines 18-94): lines 18-35 read the
    document, lines 37-93 are [exportMetricsData]. *)
Definition ExportMetricsFromGCS `{!FileSystem} `{!JSONEncoder}
    (bucket object exportDir : string) : Op (gmap string string) (option GoError) :=
  match storage_NewClient with
  | Some e => ret (Errorf "failed to create GCS client: " e)
  | None =>
      match Object_NewReader bucket object with
      | Fail e => ret (Errorf "failed to open GCS object: " e)
      | Ok reader =>
          match json_Decode reader with
          | Fail e => ret (Errorf "failed to decode JSON from GCS: " e)
          | Ok data => exportMetricsData data exportDir
          end
      end
  end.
End FromGCS.

(** ** The dispatch protocol as the design states it

    One protocol (skip if empty, ensure the destination, write), driven by
    a table of categories.  These definitions follow the design's wording
    and are compared with [LoadMetricsData] and [exportMetricsData] below;
    they are not the code. *)

Inductive Category : Type :=
| CImages | CNodes | CInsights | CLeases | CBuilds | CPods | CEvents.

#[global] Instance Category_eq_dec : EqDecision Category.
Proof. solve_decision. Defined.

(** The name a category goes by in error messages. *)
Definition noun (c : Category) : string :=
  match c with
  | CImages => "images"
  | CNodes => "nodes"
  | CInsights => "insights"
  | CLeases => "leases"
  | CBuilds => "builds"
  | CPods => "pods"
  | CEvents => "events"
  end.

(** The category-to-destination-name mapping. *)
Definition destination (c : Category) : string :=
  match c with
  | CImages => "images"
  | CNodes => "nodes"
  | CInsights => "test_platform_insights"
  | CLeases => "leases"
  | CBuilds => "openshift_builds"
  | CPods => "pods"
  | CEvents => "events"
  end.

Definition shape (c : Category) : Shape :=
  match c with
  | CImages => ShImageEventUnion
  | CNodes => ShNodeEvent
  | CInsights => ShInsightsEvent
  | CLeases => ShLeaseEventUnion
  | CBuilds => ShBuildEvent
  | CPods => ShPodLifecycleMetricsEvent
  | CEvents => ShEvent
  end.

Definition rows `{Shapes} (data : MetricsData) (c : Category) : TableData :=
  match c with
  | CImages => ImageRows (Images data)
  | CNodes => NodeRows (Nodes data)
  | CInsights => InsightsRows (TestPlatformInsights data)
  | CLeases => LeaseRows (Leases data)
  | CBuilds => BuildRows (OpenshiftBuilds data)
  | CPods => PodRows (Pods data)
  | CEvents => EventRows (Events data)
  end.

(** The fixed order [images, nodes, insights, leases, builds, pods, events]. *)
Definition fixed_order : list Category :=
  [CImages; CNodes; CInsights; CLeases; CBuilds; CPods; CEvents].

Definition position (c : Category) : nat :=
  match c with
  | CImages => 0 | CNodes => 1 | CInsights => 2 | CLeases => 3
  | CBuilds => 4 | CPods => 5 | CEvents => 6
  end.

(** The order in which [ExportMetricsFromGCS] goes through the categories. *)
Definition export_order : list Category :=
  [CImages; CNodes; CLeases; CBuilds; CPods; CInsights; CEvents].

Definition export_file (c : Category) : string := destination c +:+ ".json".

Section Protocol.
Context `{Shapes}.

Definition dispatch_load `{!Warehouse} (order : list Category) (data : MetricsData)
    : Op Client (option GoError) :=
  fold_right
    (fun c rest =>
       check (loadTable (destination c) (shape c) (noun c) (rows data c))
       or ("failed to load " +:+ noun c +:+ ": ") ;;
       rest)
    (ret None) order.

Definition dispatch_export `{!FileSystem} `{!JSONEncoder}
    (order : list Category) (data : MetricsData) (exportDir : string)
    : Op (gmap string string) (option GoError) :=
  check (mkdirAll exportDir) or "failed to create export directory: " ;;
  fold_right
    (fun c rest =>
       if (0 <? len (rows data c))%nat
       then check (exportTable exportDir (export_file c) (rows data c))
            or ("failed to export " +:+ noun c +:+ ": ") ;;
            rest
       else rest)
    (ret None) order.
End Protocol.

(** ** The ways a load can go

    [LoadStep] lists the five runs [loadTable] can make from a client state;
    [Dispatch] describes a pass over a list of categories, which stops at
    the first category whose step returns an error. *)

Inductive LoadStep `{Shapes} `{!Warehouse}
    (table : string) (sh : Shape) (nn : string) (rws : TableData) (c : Client)
    : Run Client (option GoError) -> Prop :=
| StepSkipped :
    len rws = 0%nat ->
    LoadStep table sh nn rws c (MkRun c [] None)
| StepNoSchema e :
    len rws <> 0%nat ->
    bigquery_InferSchema sh = Fail e ->
    LoadStep table sh nn rws c (MkRun c [] (Errorf "failed to infer schema: " e))
| StepCreateFailed schema c' e :
    len rws <> 0%nat ->
    bigquery_InferSchema sh = Ok schema ->
    table_Create table schema c = (c', Some e) ->
    isAlreadyExistsError (Some e) = false ->
    LoadStep table sh nn rws c
      (MkRun c' [TableCreate table (Some e)] (Errorf "failed to create table: " e))
| StepPutFailed schema c' resp c'' e :
    len rws <> 0%nat ->
    bigquery_InferSchema sh = Ok schema ->
    table_Create table schema c = (c', resp) ->
    resp = None \/ isAlreadyExistsError resp = true ->
    inserter_Put table rws c' = (c'', Some e) ->
    LoadStep table sh nn rws c
      (MkRun c'' [TableCreate table resp; InserterPut table rws (Some e)]
             (Errorf ("failed to insert " +:+ nn +:+ ": ") e))
| StepLoaded schema c' resp c'' :
    len rws <> 0%nat ->
    bigquery_InferSchema sh = Ok schema ->
    table_Create table schema c = (c', resp) ->
    resp = None \/ isAlreadyExistsError resp = true ->
    inserter_Put table rws c' = (c'', None) ->
    LoadStep table sh nn rws c
      (MkRun c'' [TableCreate table resp; InserterPut table rws None] None).

Inductive Dispatch `{Shapes} `{!Warehouse} (data : MetricsData)
    : list Category -> Client -> Run Client (option GoError) -> Prop :=
| DispatchDone c :
    Dispatch data [] c (MkRun c [] None)
| DispatchAbort X rest c r e :
    LoadStep (destination X) (shape X) (noun X) (rows data X) c r ->
    outcome r = Some e ->
    Dispatch data (X :: rest) c
      (MkRun (final r) (calls r) (Errorf ("failed to load " +:+ noun X +:+ ": ") e))
| DispatchNext X rest c r r' :
    LoadStep (destination X) (shape X) (noun X) (rows data X) c r ->
    outcome r = None ->
    Dispatch data rest (final r) r' ->
    Dispatch data (X :: rest) c
      (MkRun (final r') (calls r ++ calls r') (outcome r')).

(** A warehouse that differs from [W] only in answering a fresh success
    wherever [W] answers that the table already exists. *)
Definition conflicts_as_created `{Shapes} (W : Warehouse) : Warehouse := {|
  Client := @Client _ W;
  Schema := @Schema _ W;
  bigquery_InferSchema := @bigquery_InferSchema _ W;
  table_Create := fun table schema c =>
    let (c', resp) := @table_Create _ W table schema c in
    (c', if isAlreadyExistsError resp then None else resp);
  inserter_Put := @inserter_Put _ W
|}.

(** A recorded call without its response. *)
Definition request `{Shapes} (c : Call) : Call :=
  match c with
  | TableCreate table _ => TableCreate table None
  | InserterPut table r _ => InserterPut table r None
  | MkdirAll dir _ => MkdirAll dir None
  | OsCreate path _ => OsCreate path None
  | Encode path _ => Encode path (Ok "")
  end.

(** Two runs end in the same state with the same result after the same
    requests, whatever the responses were. *)
Definition same_effect `{Shapes} {S A} (r r' : Run S A) : Prop :=
  final r = final r'
  /\ outcome r = outcome r'
  /\ map request (calls r) = map request (calls r').

(** The non-empty categories of a document, as the destinations and rows a
    complete pass over [order] writes. *)
Definition nonempty `{Shapes} (data : MetricsData) (order : list Category)
    : list Category :=
  List.filter (fun c => negb (len (rows data c) =? 0)%nat) order.

Definition plan `{Shapes} (order : list Category) (data : MetricsData)
    : list (string * TableData) :=
  map (fun c => (destination c, rows data c)) (nonempty data order).

(** The table a recorded BigQuery call addresses. *)
Definition call_table `{Shapes} (c : Call) : option string :=
  match c with
  | TableCreate table _ => Some table
  | InserterPut table _ _ => Some table
  | _ => None
  end.

(** The destinations written to, in the order of the writes: the tables of
    the [Put] calls, and the files of the [os.Create] calls. *)
Definition put_tables `{Shapes} (cs : list Call) : list string :=
  omap (fun c => match c with InserterPut table _ _ => Some table | _ => None end) cs.

Definition created_files `{Shapes} (cs : list Call) : list string :=
  omap (fun c => match c with OsCreate path _ => Some path | _ => None end) cs.

(** The rows handed to [Put], table by table, in call order. *)
Definition puts `{Shapes} (cs : list Call) : list (string * TableData) :=
  omap (fun c => match c with InserterPut table r _ => Some (table, r) | _ => None end) cs.

(** ** What an export leaves on disk *)

(** One line per item, up to the first item that cannot be marshalled:
    the text [encode_range] appends as long as no write fails. *)
Fixpoint ndjson (items : list (result string)) : string :=
  match items with
  | Ok text :: rest => text +:+ newline +:+ ndjson rest
  | _ => ""
  end.

(** The items [exportTable] encodes for a slice, by its dynamic type. *)
Definition items `{Shapes} `{!JSONEncoder} (data : TableData)
    : option (list (result string)) :=
  match data with
  | ImageRows v => Some (map (Marshal_ptr Marshal_ImageEventUnion) v)
  | NodeRows v => Some (map (Marshal_ptr Marshal_NodeEvent) v)
  | LeaseRows v => Some (map (Marshal_ptr Marshal_LeaseEventUnion) v)
  | BuildRows v => Some (map (Marshal_ptr Marshal_BuildEvent) v)
  | PodRows v => Some (map (Marshal_ptr Marshal_PodLifecycleMetricsEvent) v)
  | InsightsRows v => Some (map (Marshal_ptr Marshal_InsightsEvent) v)
  | EventRows v => Some (map (Marshal_ptr Marshal_Event) v)
  | OtherData => None
  end.

(** Files written whole, one after the other; a later write to a path
    replaces an earlier one. *)
Definition write_all (ws : list (string * string)) (fs : gmap string string)
    : gmap string string :=
  foldl (fun fs w => <[w.1 := w.2]> fs) fs ws.

(** An operation on files is blind when it writes the same files whole,
    makes the same calls and returns the same result whatever the disk
    held before. *)
Definition blind `{Shapes} {A} (m : Op (gmap string string) A) : Prop :=
  exists ws cs a, forall fs, m fs = MkRun (write_all ws fs) cs a.

(** ** Reading newline-delimited JSON back

    A reader of an exported file: the text is cut at each newline, every
    line is decoded on its own, and text after the last newline is an
    error. *)










(** ** In-memory collaborators

    One instance of each external interface, on which the embedding runs:
    tables held in memory, a file system that refuses nothing, and records
    with a single optional field. *)

Module InMemory.

(** Pods are [struct { Ready bool `json:"ready,omitempty"` }]; the other
    pass-through records have no exported field. *)
Definition shapes : Shapes := {|
  Event := unit;
  NodeEvent := unit;
  BuildEvent := unit;
  PodLifecycleMetricsEvent := bool;
  InsightsEvent := unit
|}.
#[local] Existing Instance shapes.

Definition quote : string := String (ascii_of_nat 34) "".

Definition marshal_pod (ready : bool) : result string :=
  if ready then Ok ("{" +:+ quote +:+ "ready" +:+ quote +:+ ":true}") else Ok "{}".


(** Objects are rendered with their keys only. *)
Definition render_keys (members : list (string * GoValue)) : result string :=
  Ok ("{" +:+ String.concat "," (map fst members) +:+ "}").

Definition encoder : @JSONEncoder shapes := {|
  render_object := render_keys;
  Marshal_NodeEvent := fun _ : @NodeEvent shapes => Ok "{}";
  Marshal_BuildEvent := fun _ : @BuildEvent shapes => Ok "{}";
  Marshal_PodLifecycleMetricsEvent := marshal_pod : @PodLifecycleMetricsEvent shapes -> _;
  Marshal_InsightsEvent := fun _ : @InsightsEvent shapes => Ok "{}";
  Marshal_Event := fun _ : @Event shapes => Ok "{}"
|}.

Definition disk : FileSystem := {|
  filepath_Join := fun dir name => dir +:+ "/" +:+ name;
  os_MkdirAll := fun _ => None;
  os_Create := fun _ => None;
  file_Write := fun _ _ _ => None
|}.

Record Tables : Type := {
  existing : list string;
  stored : list (string * @TableData shapes)
}.

Definition no_tables : Tables := {| existing := []; stored := [] |}.

(** The dataset after an earlier run created [leases]. *)
Definition leases_table_exists : Tables :=
  {| existing := ["leases"]; stored := [] |}.

(** A warehouse that answers 409 when the table exists, and whose [Create]
    and [Put] can be made to fail for chosen tables. *)
Definition warehouse (create_fails put_fails : string -> option GoError)
    : @Warehouse shapes := {|
  Client := Tables;
  Schema := Shape;
  bigquery_InferSchema := fun s => Ok s;
  table_Create := fun table _ c =>
    match create_fails table with
    | Some e => (c, Some e)
    | None =>
        if bool_decide (table ∈ existing c)
        then (c, Some (ErrGoogleAPI 409 "Already Exists"))
        else ({| existing := table :: existing c; stored := stored c |}, None)
    end;
  inserter_Put := fun table r c =>
    match put_fails table with
    | Some e => (c, Some e)
    | None => ({| existing := existing c; stored := stored c ++ [(table, r)] |}, None)
    end
|}.

Definition never : string -> option GoError := fun _ => None.

Definition record : option unit := Some tt.

Definition only (table : string) (e : GoError) : string -> option GoError :=
  fun t => if String.eqb t table then Some e else None.

Definition empty_document : @MetricsData shapes := {|
  Events := []; Images := []; Leases := []; Nodes := [];
  OpenshiftBuilds := []; Pods := []; TestPlatformInsights := []
|}.

(** A lease acquisition: only acquisition-side fields are set. *)
Definition acquisition : LeaseEventUnion.t :=
  LeaseEventUnion.Build "aws-quota-slice" "" "us-east-1" "aws--us-east-1--03"
    4607182418800017408 0 3 0 0 false "" 1700000000.

(** [{"leases":[...one acquisition...],"test_platform_insights":[{}]}] *)
Definition leases_and_insights : @MetricsData shapes := {|
  Events := []; Images := []; Leases := [Some acquisition]; Nodes := [];
  OpenshiftBuilds := []; Pods := []; TestPlatformInsights := [record]
|}.

(** [{"images":[{}],"leases":[...],"openshift_builds":[{}]}] *)
Definition images_leases_builds : @MetricsData shapes := {|
  Events := []; Images := [Some ImageEventUnion.zero];
  Leases := [Some acquisition]; Nodes := [];
  OpenshiftBuilds := [record]; Pods := []; TestPlatformInsights := []
|}.

(** [{"pods":[{"ready":true},{},null],"events":[{}]}] *)
Definition three_pods : @MetricsData shapes := {|
  Events := [record]; Images := []; Leases := []; Nodes := [];
  OpenshiftBuilds := []; Pods := [Some true; Some false; None];
  TestPlatformInsights := []
|}.

End InMemory.

(** ** The entry points

    [bigquery.NewClient] followed by [NewBigQueryLoader] yields the handle
    on one dataset of one project that [LoadMetricsData] works through, or
    [NewClient]'s error (external). *)

Class BigQueryService `{Shapes} `{!Warehouse} : Type := {
  bigquery_NewClient : string -> string -> result Client
}.

(** [strings.HasPrefix(s, prefix)]:
    [len(s) >= len(prefix) && s[:len(prefix)] == prefix]. *)
Definition strings_HasPrefix (s prefix : string) : bool :=
  (String.length prefix <=? String.length s)%nat &&
  String.eqb (substring 0 (String.length prefix) s) prefix.

(** [strings.TrimPrefix(s, prefix)]: [s[len(prefix):]] when [s] starts with
    [prefix], and [s] otherwise. *)
Definition strings_TrimPrefix (s prefix : string) : string :=
  if strings_HasPrefix s prefix
  then substring (String.length prefix) (String.length s - String.length prefix) s
  else s.

(** The fields of [url.URL] that [parseGCSPath] reads, and [url.Parse]
    (external). *)
Record URL : Type := {
  Scheme : string;
  Host : string;
  Path : string
}.

Class URLParser : Type := {
  url_Parse : string -> result URL
}.


(** The cloud function (cmd/ci-metrics-bigquery/cloudfunction.go). *)
Module CloudFunction.

Definition ProjectName : string := "openshift-gce-devel".
Definition DatasetName : string := "ci_operator_metrics".

(** [storage.Event], as far as it is read. *)
Record Event : Type := {
  Bucket : string;
  Name : string
}.

(** cloudfunction.go, lines 24-48.  The state is the dataset handle, once
    there is one. *)
Definition LoadMetricsFromGCS `{Shapes} `{!Warehouse} `{!BigQueryService}
    `{!Source} (e : Event) : Run (option Client) (option GoError) :=
  if negb (IsMetricsFile (Name e))
  then MkRun None []
         (Some (ErrOther ("unexpected file received: " +:+ Name e
                          +:+ " (expected ci-operator-metrics.json)")))
  else
    match bigquery_NewClient ProjectName DatasetName with
    | Fail err => MkRun None [] (Errorf "failed to create BigQuery client: " err)
    | Ok c =>
        let r := LoadFromGCS (Bucket e) (Name e) c in
        MkRun (Some (final r)) (calls r)
          match outcome r with
          | Some err => Errorf "failed to load metrics: " err
          | None => None
          end
    end.

End CloudFunction.

(** The command-line tool (main.go). *)
Module Main.

Record options : Type := {
  projectID : string;
  datasetID : string;
  gcsPath : string;
  bucket : string;
  object : string;
  exportDir : string
}.

(** main.go, lines 36-50. *)
Definition validate (opts : options) : option GoError :=
  if String.eqb (gcsPath opts) ""
  then Some (ErrOther "--gcs-path is required")
  else
    if String.eqb (exportDir opts) ""
    then
      if String.eqb (projectID opts) ""
      then Some (ErrOther "--google-project-id is required")
      else
        if String.eqb (datasetID opts) ""
        then Some (ErrOther "--bigquery-dataset is required")
        else None
    else None.

(** main.go, lines 95-112: [(bucket, object, err)]. *)
Definition parseGCSPath `{!URLParser} (gcsPath : string)
    : string * string * option GoError :=
  match url_Parse gcsPath with
  | Fail err => ("", "", Errorf "invalid GCS path: " err)
  | Ok u =>
      if negb (String.eqb (Scheme u) "gs")
      then ("", "",
            Some (ErrOther ("path must use gs:// scheme, got " +:+ Scheme u +:+ "://")))
      else
        if String.eqb (Host u) ""
        then ("", "", Some (ErrOther "bucket name is required"))
        else
          let object := strings_TrimPrefix (Path u) "/" in
          if String.eqb object ""
          then ("", "", Some (ErrOther "object path is required"))
          else (Host u, object, None)
  end.

(** main.go, lines 52-59: the options after the call, and its result. *)
Definition complete `{!URLParser} (o : options) : options * option GoError :=
  let '(b, obj, err) := parseGCSPath (gcsPath o) in
  let o' := {| projectID := projectID o; datasetID := datasetID o;
               gcsPath := gcsPath o; bucket := b; object := obj;
               exportDir := exportDir o |} in
  match err with
  | Some e => (o', Errorf "invalid GCS path: " e)
  | None => (o', None)
  end.



End Main.

(** ** More vocabulary for the properties *)

(** The place of a category in the order of the export. *)
Definition export_position (c : Category) : nat :=
  match c with
  | CImages => 0 | CNodes => 1 | CLeases => 2 | CBuilds => 3
  | CPods => 4 | CInsights => 5 | CEvents => 6
  end.

(** A response to [Create] after which the rows are inserted. *)
Definition tolerated (resp : option GoError) : Prop :=
  resp = None \/ isAlreadyExistsError resp = true.

(** The calls of a complete step for one table. *)
Definition loaded_block `{Shapes} (table : string) (rws : TableData)
    (cs : list Call) : Prop :=
  exists resp, tolerated resp
    /\ cs = [TableCreate table resp; InserterPut table rws None].



(** The tables of the [Create] calls, in call order. *)
Definition created_tables `{Shapes} (cs : list Call) : list string :=
  omap (fun c => match c with TableCreate table _ => Some table | _ => None end) cs.

(** ** More in-memory collaborators *)

Module Scenarios.
#[local] Existing Instance InMemory.shapes.

(** A warehouse that refuses nothing. *)
Definition steady : @Warehouse InMemory.shapes :=
  InMemory.warehouse InMemory.never InMemory.never.

(** A warehouse in which the creation of [leases] is denied. *)
Definition leases_denied : @Warehouse InMemory.shapes :=
  InMemory.warehouse (InMemory.only "leases" (ErrGoogleAPI 403 "Access Denied"))
    InMemory.never.

(** A warehouse for which no schema can be inferred from
    [ImageEventUnion]. *)
Definition no_image_schema : @Warehouse InMemory.shapes := {|
  Client := InMemory.Tables;
  Schema := Shape;
  bigquery_InferSchema := fun s =>
    match s with
    | ShImageEventUnion => Fail (ErrOther "bigquery: unsupported type of field in struct")
    | _ => Ok s
    end;
  table_Create := @table_Create _ steady;
  inserter_Put := @inserter_Put _ steady
|}.

(** A disk on which [nodes.json] cannot be created. *)
Definition no_nodes_file : FileSystem := {|
  filepath_Join := fun dir name => dir +:+ "/" +:+ name;
  os_MkdirAll := fun _ => None;
  os_Create := fun path =>
    if String.eqb path "out/nodes.json"
    then Some (ErrOther "permission denied") else None;
  file_Write := fun _ _ _ => None
|}.

(** A disk on which no directory can be made. *)
Definition no_directory : FileSystem := {|
  filepath_Join := fun dir name => dir +:+ "/" +:+ name;
  os_MkdirAll := fun _ => Some (ErrOther "read-only file system");
  os_Create := fun _ => None;
  file_Write := fun _ _ _ => None
|}.

(** A disk that takes one line per file: a write to a file that already
    holds text stops after one byte. *)
Definition short_write : FileSystem := {|
  filepath_Join := fun dir name => dir +:+ "/" +:+ name;
  os_MkdirAll := fun _ => None;
  os_Create := fun _ => None;
  file_Write := fun _ held _ =>
    if String.eqb held "" then None
    else Some (1%nat, ErrOther "no space left on device")
|}.






(** [{"images":[{}],"nodes":[{}],"pods":[{"ready":true}]}] *)
Definition images_nodes_pods : @MetricsData InMemory.shapes := {|
  Events := []; Images := [Some ImageEventUnion.zero]; Leases := [];
  Nodes := [InMemory.record]; OpenshiftBuilds := [];
  Pods := [Some true]; TestPlatformInsights := []
|}.

(** An object store holding one metrics file and one file that is not
    JSON. *)
Definition store : @Source InMemory.shapes := {|
  storage_NewClient := None;
  Object_NewReader := fun bucket object =>
    if String.eqb bucket "ci-logs"
    then Ok object
    else Fail (ErrOther "storage: bucket doesn't exist");
  json_Decode := fun reader =>
    if String.eqb reader "run/ci-operator-metrics.json"
    then Ok InMemory.three_pods
    else Fail (ErrOther "invalid character")
|}.

Definition service (W : @Warehouse InMemory.shapes)
    (start : @Client _ W) : @BigQueryService InMemory.shapes W := {|
  bigquery_NewClient := fun project dataset =>
    if String.eqb project "" then Fail (ErrOther "bigquery: projectID missing")
    else Ok start
|}.

(** A parser that knows three URLs. *)
Definition parser : URLParser := {|
  url_Parse := fun s =>
    if String.eqb s "gs://ci-logs/run/ci-operator-metrics.json"
    then Ok {| Scheme := "gs"; Host := "ci-logs";
               Path := "/run/ci-operator-metrics.json" |}
    else if String.eqb s "gs://ci-logs"
    then Ok {| Scheme := "gs"; Host := "ci-logs"; Path := "" |}
    else if String.eqb s "https://ci-logs/run"
    then Ok {| Scheme := "https"; Host := "ci-logs"; Path := "/run" |}
    else Fail (ErrOther "parse error")
|}.

End Scenarios.

(** The pass of the export over a list of categories, once the directory
    is there. *)
Definition export_pass `{Shapes} `{!FileSystem} `{!JSONEncoder}
    (data : MetricsData) (exportDir : string) (order : list Category)
    : Op (gmap string string) (option GoError) :=
  fold_right
    (fun X rest =>
       if (0 <? len (rows data X))%nat
       then check (exportTable exportDir (export_file X) (rows data X))
            or ("failed to export " +:+ noun X +:+ ": ") ;;
            rest
       else rest)
    (ret None) order.

(** Flags of an export run: no project, no dataset. *)
Definition export_flags : Main.options := {|
  Main.projectID := ""; Main.datasetID := "";
  Main.gcsPath := "gs://ci-logs/run/ci-operator-metrics.json";
  Main.bucket := ""; Main.object := ""; Main.exportDir := "out"
|}.

(** [fmt.Errorf] applied once for each prefix, the first prefix outermost. *)
Definition wrap_all (prefixes : list string) (err : GoError) : GoError :=
  fold_right ErrWrap err prefixes.

(** * Part II: properties *)

(** ** Strings *)

Section StringFacts.

Lemma append_cons (c : ascii) (s t : string) :
  String c s +:+ t = String c (s +:+ t).
Proof. reflexivity. Qed.

Lemma append_nil (t : string) : "" +:+ t = t.
Proof. reflexivity. Qed.

Lemma append_assoc (s t u : string) : (s +:+ t) +:+ u = s +:+ (t +:+ u).
Proof.
  induction s as [|c s IH]; [reflexivity |].
  rewrite !append_cons. now rewrite IH.
Qed.

Lemma substring_all (s : string) : substring 0 (String.length s) s = s.
Proof. induction s as [|c s IH]; simpl; [reflexivity | now rewrite IH]. Qed.

Lemma length_append (p q : string) :
  String.length (p +:+ q) = (String.length p + String.length q)%nat.
Proof.
  induction p as [|c p IH]; [reflexivity |].
  rewrite append_cons. simpl. now rewrite IH.
Qed.

Lemma substring_skip_prefix (p q : string) :
  substring (String.length p) (String.length q) (p +:+ q) = q.
Proof.
  induction p as [|c p IH]; [apply substring_all |].
  rewrite append_cons. simpl. exact IH.
Qed.

(** Every string splits at any position [n] within it into the part
    before and the part from [n] on. *)
Lemma split_at (s : string) :
  forall n, (n <= String.length s)%nat ->
    s = substring 0 n s +:+ substring n (String.length s - n) s.
Proof.
  induction s as [|c s IH]; intros [|n] Hn; simpl in *.
  - reflexivity.
  - lia.
  - rewrite append_nil. now rewrite substring_all.
  - rewrite append_cons. f_equal. apply IH. lia.
Qed.

Lemma strings_HasSuffix_iff (s suffix : string) :
  strings_HasSuffix s suffix = true <-> exists p, s = p +:+ suffix.
Proof.
  unfold strings_HasSuffix. split.
  - intros Hs. apply andb_true_iff in Hs as [Hlen Heq].
    apply Nat.leb_le in Hlen. apply String.eqb_eq in Heq.
    exists (substring 0 (String.length s - String.length suffix) s).
    rewrite (split_at s (String.length s - String.length suffix)) at 1 by lia.
    f_equal.
    replace (String.length s - (String.length s - String.length suffix))%nat
      with (String.length suffix) by lia.
    exact Heq.
  - intros [p ->]. apply andb_true_iff. split.
    + apply Nat.leb_le. rewrite length_append. lia.
    + apply String.eqb_eq. rewrite length_append.
      replace (String.length p + String.length suffix - String.length suffix)%nat
        with (String.length p) by lia.
      apply substring_skip_prefix.
Qed.

End StringFacts.

(** C5.  A name is a metrics file exactly when it ends with
    [ci-operator-metrics.json]: [IsMetricsFile n] is true if and only if
    [n] is some prefix followed by that literal.  It is false for
    [foo.json] and true for [path/to/ci-operator-metrics.json]. *)
Theorem IsMetricsFile_iff_suffix :
  (forall n : string,
     IsMetricsFile n = true <-> exists p, n = p +:+ "ci-operator-metrics.json")
  /\ IsMetricsFile "foo.json" = false
  /\ IsMetricsFile "path/to/ci-operator-metrics.json" = true.
Proof.
  split; [| split; reflexivity].
  intros n. unfold IsMetricsFile, MetricsFileName. apply strings_HasSuffix_iff.
Qed.

(** ** The serialized form of the union records *)

Section StructEncoding.

Lemma json_keys_spec (fields : list StructField) (k : string) :
  In k (json_keys fields) <->
  exists f, In f fields /\ json_name f = k /\ kept f = true.
Proof.
  unfold json_keys, json_members. rewrite map_map. simpl.
  rewrite in_map_iff. split.
  - intros [f [Hk Hf]]. apply filter_In in Hf as [Hin Hkept]. eauto.
  - intros [f [Hin [Hk Hkept]]]. exists f. split; [exact Hk |].
    apply filter_In. split; assumption.
Qed.

(** When no two fields share a key, a field's key is in the output
    exactly when the field itself is kept. *)
Lemma json_keys_field (fields : list StructField) (f : StructField) :
  NoDup (map json_name fields) -> In f fields ->
  (In (json_name f) (json_keys fields) <-> kept f = true).
Proof.
  intros Hnd Hin. rewrite json_keys_spec. split.
  - intros [g [Hg [Hname Hkept]]].
    assert (g = f) as <-; [| exact Hkept].
    clear Hkept. induction fields as [|h fields IH]; [contradiction |].
    simpl in Hnd. apply NoDup_cons in Hnd as [Hh Hnd].
    destruct Hg as [-> | Hg], Hin as [-> | Hin]; try reflexivity.
    + exfalso. apply Hh. rewrite Hname. apply list_elem_of_In.
      now apply in_map.
    + exfalso. apply Hh. rewrite <- Hname. apply list_elem_of_In.
      now apply in_map.
    + now apply IH.
  - intros Hkept. eauto.
Qed.

Lemma LeaseEventUnion_keys_distinct (r : LeaseEventUnion.t) :
  NoDup (map json_name (LeaseEventUnion.fields r)).
Proof. apply (bool_decide_unpack _). vm_compute. reflexivity. Qed.

Lemma ImageEventUnion_keys_distinct (r : ImageEventUnion.t) :
  NoDup (map json_name (ImageEventUnion.fields r)).
Proof. apply (bool_decide_unpack _). vm_compute. reflexivity. Qed.

(** The [timestamp] key is always written. *)
Lemma LeaseEventUnion_timestamp_present (r : LeaseEventUnion.t) :
  In "timestamp" (json_keys (LeaseEventUnion.fields r)).
Proof.
  apply json_keys_spec.
  exists (Field "timestamp" false (VTime (LeaseEventUnion.Timestamp r))).
  split; [| split; reflexivity]. simpl. tauto.
Qed.

Lemma ImageEventUnion_timestamp_present (r : ImageEventUnion.t) :
  In "timestamp" (json_keys (ImageEventUnion.fields r)).
Proof.
  apply json_keys_spec.
  exists (Field "timestamp" false (VTime (ImageEventUnion.Timestamp r))).
  split; [| split; reflexivity]. simpl. tauto.
Qed.

End StructEncoding.

(** C3, as the code has it.  In a [LeaseEventUnion] or [ImageEventUnion],
    a field tagged [omitempty] whose type is not a struct (a string, a
    number, a boolean or a map) has its key in the serialized object
    exactly when its value is not empty.  A field holding zero is therefore
    written as absent, whether it was assigned zero or never assigned: the
    two cannot be told apart in the output. *)
Theorem union_field_present_iff_nonempty
    (fields : list StructField) (f : StructField) :
  union_record_fields fields ->
  In f fields ->
  omitempty f = true ->
  is_struct (field_value f) = false ->
  (In (json_name f) (json_keys fields) <-> isEmptyValue (field_value f) = false).
Proof.
  intros Hrec Hin Homit _.
  assert (NoDup (map json_name fields)) as Hnd.
  { destruct Hrec as [[r ->] | [r ->]];
      [apply LeaseEventUnion_keys_distinct | apply ImageEventUnion_keys_distinct]. }
  rewrite (json_keys_field fields f Hnd Hin).
  unfold kept. rewrite Homit. simpl.
  destruct (isEmptyValue (field_value f)); simpl; split; congruence.
Qed.

Lemma union_field_present_iff_nonempty_witness :
  In "region" (json_keys (LeaseEventUnion.fields InMemory.acquisition))
  <-> isEmptyValue (VString "us-east-1") = false.
Proof.
  apply (union_field_present_iff_nonempty
           (LeaseEventUnion.fields InMemory.acquisition)
           (Field "region" true (VString "us-east-1"))).
  - left. exists InMemory.acquisition. reflexivity.
  - simpl. tauto.
  - reflexivity.
  - reflexivity.
Defined.

(** C3, as stated, does not hold: [LeaseEventUnion{LeasesTotal: 0}] and
    [LeaseEventUnion{}] are written as the same object. *)
Lemma zero_not_distinguishable_from_unset :
  ~ absence_distinguishable_from_zero.
Proof.
  intros [_ Hdiff].
  apply (Hdiff LeaseEventUnion.zero); reflexivity.
Qed.

(** C9.  The [timestamp] key is written for every record of both union
    types.  In an [ImageEventUnion] so are [start_time] and
    [completion_time], although both are tagged [omitempty]: the zero
    record is written with exactly these three keys. *)
Theorem ImageEventUnion_zero_times_written :
  (forall r : LeaseEventUnion.t, In "timestamp" (json_keys (LeaseEventUnion.fields r)))
  /\ (forall r : ImageEventUnion.t,
        In "timestamp" (json_keys (ImageEventUnion.fields r))
        /\ In "start_time" (json_keys (ImageEventUnion.fields r))
        /\ In "completion_time" (json_keys (ImageEventUnion.fields r)))
  /\ json_keys (ImageEventUnion.fields ImageEventUnion.zero)
     = ["start_time"; "completion_time"; "timestamp"]
  /\ json_keys (LeaseEventUnion.fields LeaseEventUnion.zero) = ["timestamp"].
Proof.
  split; [exact LeaseEventUnion_timestamp_present |].
  split; [| split; reflexivity].
  intros r. split; [apply ImageEventUnion_timestamp_present |].
  split; apply json_keys_spec.
  - exists (Field "start_time" true (VTime (ImageEventUnion.StartTime r))).
    split; [| split; reflexivity]. simpl. tauto.
  - exists (Field "completion_time" true (VTime (ImageEventUnion.CompletionTime r))).
    split; [| split; reflexivity]. simpl. tauto.
Qed.

(** ** The warehouse dispatcher *)

Section LoaderFacts.
Context `{Shapes} `{!Warehouse}.

Lemma guard_run {S} (m : Op S (option GoError)) (prefix : string)
    (rest : Op S (option GoError)) (s : S) :
  guard m prefix rest s =
  match outcome (m s) with
  | Some e => MkRun (final (m s)) (calls (m s)) (Errorf prefix e)
  | None =>
      let r' := rest (final (m s)) in
      MkRun (final r') (calls (m s) ++ calls r') (outcome r')
  end.
Proof.
  unfold guard, bind. destruct (outcome (m s)); simpl; [| reflexivity].
  now rewrite app_nil_r.
Qed.

Lemma loadTable_step table sh nn rws c :
  LoadStep table sh nn rws c (loadTable table sh nn rws c).
Proof.
  unfold loadTable.
  destruct (len rws =? 0)%nat eqn:Hlen.
  { apply Nat.eqb_eq in Hlen. now constructor. }
  apply Nat.eqb_neq in Hlen.
  destruct (bigquery_InferSchema sh) as [schema | e] eqn:Hschema.
  2: { now constructor. }
  unfold bind, Create. cbn zeta.
  destruct (table_Create table schema c) as [c' resp] eqn:Hcreate. simpl.
  assert (forall resp',
    resp' = None \/ isAlreadyExistsError resp' = true ->
    table_Create table schema c = (c', resp') ->
    LoadStep table sh nn rws c
      (MkRun
         (final (guard (Put table rws) ("failed to insert " +:+ nn +:+ ": ") (ret None) c'))
         (TableCreate table resp' ::
            calls (guard (Put table rws) ("failed to insert " +:+ nn +:+ ": ") (ret None) c'))
         (outcome (guard (Put table rws) ("failed to insert " +:+ nn +:+ ": ") (ret None) c'))))
    as Hinsert.
  { intros resp' Hok Hc. rewrite guard_run. unfold Put.
    destruct (inserter_Put table rws c') as [c'' [e |]] eqn:Hput; simpl.
    - eapply StepPutFailed; eassumption.
    - eapply StepLoaded; eassumption. }
  destruct resp as [e |].
  - destruct (isAlreadyExistsError (Some e)) eqn:Hexists; simpl.
    + apply Hinsert; [now right | assumption].
    + eapply StepCreateFailed; eassumption.
  - apply Hinsert; [now left | assumption].
Qed.

Lemma dispatch_load_Dispatch (data : MetricsData) (order : list Category) :
  forall c, Dispatch data order c (dispatch_load order data c).
Proof.
  induction order as [|X order IH]; intros c.
  - constructor.
  - simpl. rewrite guard_run.
    pose proof (loadTable_step (destination X) (shape X) (noun X) (rows data X) c)
      as Hstep.
    destruct (outcome (loadTable (destination X) (shape X) (noun X) (rows data X) c))
      as [e |] eqn:Hout.
    + now apply DispatchAbort.
    + cbn zeta. apply DispatchNext; [assumption | assumption | apply IH].
Qed.

(** The code is the protocol run over the fixed order. *)
Lemma LoadMetricsData_dispatch (data : MetricsData) :
  LoadMetricsData data = dispatch_load fixed_order data.
Proof. reflexivity. Qed.

Lemma LoadMetricsData_Dispatch (data : MetricsData) (c : Client) :
  Dispatch data fixed_order c (LoadMetricsData data c).
Proof. rewrite LoadMetricsData_dispatch. apply dispatch_load_Dispatch. Qed.

End LoaderFacts.

Section OrderFacts.

Lemma destination_inj (X Y : Category) : destination X = destination Y -> X = Y.
Proof. destruct X, Y; simpl; intros Heq; first [reflexivity | discriminate Heq]. Qed.

Lemma fixed_order_NoDup : NoDup fixed_order.
Proof. apply (bool_decide_unpack _). vm_compute. reflexivity. Qed.

Lemma fixed_order_position (X : Category) :
  fixed_order !! position X = Some X.
Proof. destruct X; reflexivity. Qed.

(** Where the fixed order is cut at [X], the categories before the cut
    are those of smaller position and the ones after it those of larger
    position. *)
Lemma fixed_order_split (l1 l2 : list Category) (X : Category) :
  fixed_order = l1 ++ X :: l2 ->
  forall Y, (In Y l1 <-> (position Y < position X)%nat)
            /\ (In Y l2 <-> (position X < position Y)%nat).
Proof.
  intros Hcut.
  assert (length l1 = position X) as Hlen.
  { assert (fixed_order !! length l1 = Some X) as Hl1.
    { rewrite Hcut. rewrite lookup_app_r by lia.
      now rewrite Nat.sub_diag. }
    eapply NoDup_lookup;
      [apply fixed_order_NoDup | exact Hl1 | apply fixed_order_position]. }
  assert (l1 = take (position X) fixed_order) as Htake.
  { rewrite Hcut, <- Hlen. now rewrite take_app_length. }
  assert (l2 = drop (S (position X)) fixed_order) as Hdrop.
  { rewrite Hcut, <- Hlen.
    replace (l1 ++ X :: l2) with ((l1 ++ [X]) ++ l2)
      by now rewrite <- app_assoc.
    rewrite drop_app_length'; [reflexivity |].
    rewrite length_app. simpl. lia. }
  rewrite Htake, Hdrop. clear.
  intros Y. destruct X, Y; simpl; intuition (discriminate || lia).
Qed.

End OrderFacts.

Section DispatchFacts.
Context `{Shapes} `{!Warehouse}.

(** Every call of a category's step addresses that category's table. *)
Lemma LoadStep_calls_table table sh nn rws c r :
  LoadStep table sh nn rws c r ->
  forall call, In call (calls r) -> call_table call = Some table.
Proof.
  intros Hstep call Hin.
  destruct Hstep; simpl in Hin;
    repeat (destruct Hin as [<- | Hin]; [reflexivity |]); contradiction.
Qed.

(** A step that returned no error either was skipped or created (or
    found) the table and inserted the rows. *)
Lemma LoadStep_success table sh nn rws c r :
  LoadStep table sh nn rws c r ->
  outcome r = None ->
  (len rws = 0%nat /\ calls r = [])
  \/ (len rws <> 0%nat /\
      exists resp, calls r = [TableCreate table resp; InserterPut table rws None]).
Proof.
  intros Hstep Hout. destruct Hstep; simpl in Hout; try discriminate Hout.
  - left. split; [assumption | reflexivity].
  - right. split; [assumption |]. eexists. reflexivity.
Qed.

(** A pass in which some [Put] failed. *)
Lemma Dispatch_put_failed data order c r :
  Dispatch data order c r ->
  forall table rws e,
    In (InserterPut table rws (Some e)) (calls r) ->
    exists l1 X l2 pre resp,
      order = l1 ++ X :: l2
      /\ table = destination X
      /\ rws = rows data X
      /\ outcome r =
           Errorf ("failed to load " +:+ noun X +:+ ": ")
                  (ErrWrap ("failed to insert " +:+ noun X +:+ ": ") e)
      /\ calls r = pre ++ [TableCreate table resp; InserterPut table rws (Some e)]
      /\ (forall Y, In Y l1 ->
            len (rows data Y) = 0%nat
            \/ In (InserterPut (destination Y) (rows data Y) None) pre)
      /\ (forall call, In call pre ->
            exists Y, In Y l1 /\ call_table call = Some (destination Y)).
Proof.
  induction 1 as [c | X rest c r e0 Hstep Hout | X rest c r r' Hstep Hout Hrest IH];
    intros table rws e Hin; simpl in Hin.
  - contradiction.
  - destruct Hstep; simpl in Hin, Hout;
      repeat (destruct Hin as [Hin | Hin]; try discriminate Hin);
      try contradiction.
    injection Hin as <- <- <-. injection Hout as <-.
    exists [], X, rest, [], resp. simpl.
    repeat split; try reflexivity; intros ? [].
  - apply in_app_or in Hin as [Hin | Hin].
    { destruct (LoadStep_success _ _ _ _ _ _ Hstep Hout)
        as [[_ Hcalls] | [_ [resp Hcalls]]]; rewrite Hcalls in Hin; simpl in Hin;
        repeat (destruct Hin as [Hin | Hin]; try discriminate Hin);
        contradiction. }
    destruct (IH _ _ _ Hin)
      as (l1 & X' & l2 & pre & resp & -> & -> & -> & Hres & Hcalls & Hbefore & Hpre).
    exists (X :: l1), X', l2, (calls r ++ pre), resp. simpl.
    repeat split; try reflexivity.
    + exact Hres.
    + rewrite Hcalls. now rewrite app_assoc.
    + intros Y [<- | HY].
      * destruct (LoadStep_success _ _ _ _ _ _ Hstep Hout)
          as [[Hlen _] | [_ [resp' Hc]]]; [now left | right].
        apply in_or_app. left. rewrite Hc. simpl. tauto.
      * destruct (Hbefore Y HY) as [Hlen | Hput]; [now left | right].
        apply in_or_app. now right.
    + intros call Hcall. apply in_app_or in Hcall as [Hcall | Hcall].
      * exists X. split; [now left |].
        eapply LoadStep_calls_table; eassumption.
      * destruct (Hpre call Hcall) as [Y [HY Ht]]. exists Y. split; [now right | exact Ht].
Qed.

(** A pass in which some [Create] failed with an error that is not an
    already-exists conflict. *)
Lemma Dispatch_create_failed data order c r :
  Dispatch data order c r ->
  forall table e,
    In (TableCreate table (Some e)) (calls r) ->
    isAlreadyExistsError (Some e) = false ->
    exists l1 X l2 pre,
      order = l1 ++ X :: l2
      /\ table = destination X
      /\ outcome r =
           Errorf ("failed to load " +:+ noun X +:+ ": ")
                  (ErrWrap "failed to create table: " e)
      /\ calls r = pre ++ [TableCreate table (Some e)]
      /\ (forall call, In call pre ->
            exists Y, In Y l1 /\ call_table call = Some (destination Y)).
Proof.
  induction 1 as [c | X rest c r e0 Hstep Hout | X rest c r r' Hstep Hout Hrest IH];
    intros table e Hin Hno; simpl in Hin.
  - contradiction.
  - destruct Hstep as [| | ? ? ? ? ? ? ? | ? ? ? ? ? ? ? ? Hresp |];
      simpl in Hin, Hout; try discriminate Hout;
      repeat (destruct Hin as [Hin | Hin]; try discriminate Hin);
      try contradiction.
    + injection Hin as <- <-. injection Hout as <-.
      exists [], X, rest, []. simpl.
      repeat split; try reflexivity; intros ? [].
    + injection Hin as <- ->.
      destruct Hresp as [Hresp | Hresp]; congruence.
  - apply in_app_or in Hin as [Hin | Hin].
    { destruct Hstep as [| | | | ? ? ? ? ? ? ? Hresp]; simpl in Hin, Hout;
        try discriminate Hout;
        repeat (destruct Hin as [Hin | Hin]; try discriminate Hin);
        try contradiction.
      injection Hin as <- ->.
      destruct Hresp as [Hresp | Hresp]; congruence. }
    destruct (IH _ _ Hin Hno)
      as (l1 & X' & l2 & pre & -> & -> & Hres & Hcalls & Hpre).
    exists (X :: l1), X', l2, (calls r ++ pre). simpl.
    repeat split; try reflexivity.
    + exact Hres.
    + rewrite Hcalls. now rewrite app_assoc.
    + intros call Hcall. apply in_app_or in Hcall as [Hcall | Hcall].
      * exists X. split; [now left |].
        eapply LoadStep_calls_table; eassumption.
      * destruct (Hpre call Hcall) as [Y [HY Ht]]. exists Y. split; [now right | exact Ht].
Qed.

(** A pass that returned no error wrote every non-empty category, in
    order. *)
Lemma Dispatch_success data order c r :
  Dispatch data order c r ->
  outcome r = None ->
  puts (calls r) = plan order data.
Proof.
  unfold plan, nonempty.
  induction 1 as [c | X rest c r e0 Hstep Hout | X rest c r r' Hstep Hout Hrest IH];
    intros Hnone; simpl in Hnone.
  - reflexivity.
  - discriminate Hnone.
  - simpl. unfold puts in *. rewrite omap_app. rewrite (IH Hnone).
    destruct (LoadStep_success _ _ _ _ _ _ Hstep Hout)
      as [[Hlen ->] | [Hlen [resp ->]]].
    + rewrite Hlen. reflexivity.
    + apply Nat.eqb_neq in Hlen. rewrite Hlen. reflexivity.
Qed.

End DispatchFacts.

Section LoaderTheorems.
Context `{Shapes}.

(** No call made before the cut addresses a category at or after it. *)
Lemma calls_before_cut (l1 l2 : list Category) (X : Category)
    (pre : list Call) :
  fixed_order = l1 ++ X :: l2 ->
  (forall call, In call pre ->
     exists Y, In Y l1 /\ call_table call = Some (destination Y)) ->
  forall Y call, (position X <= position Y)%nat -> In call pre ->
    call_table call <> Some (destination Y).
Proof.
  intros Hcut Hpre Y call Hpos Hin Htable.
  destruct (Hpre call Hin) as [Z [HZ HtZ]].
  rewrite Htable in HtZ. injection HtZ as HtZ.
  apply destination_inj in HtZ as ->.
  apply (fixed_order_split _ _ _ Hcut) in HZ. lia.
Qed.

(** C2.  Whenever the insert of a category [X] fails, [LoadMetricsData]
    returns that error wrapped with the name of [X]; the failed insert is
    the last call made; every category before [X] in the order images,
    nodes, insights, leases, builds, pods, events is done, that is, it
    was empty and skipped or its rows have been inserted; and no call
    addresses a category after [X]. *)
Theorem write_failure_stops_dispatch `{!Warehouse}
    (data : MetricsData) (c : Client) (X : Category)
    (rws : TableData) (e : GoError) :
  In (InserterPut (destination X) rws (Some e)) (calls (LoadMetricsData data c)) ->
  outcome (LoadMetricsData data c)
    = Some (ErrWrap ("failed to load " +:+ noun X +:+ ": ")
              (ErrWrap ("failed to insert " +:+ noun X +:+ ": ") e))
  /\ rws = rows data X
  /\ (exists pre resp,
        calls (LoadMetricsData data c)
        = pre ++ [TableCreate (destination X) resp;
                  InserterPut (destination X) rws (Some e)])
  /\ (forall Y, (position Y < position X)%nat ->
        len (rows data Y) = 0%nat
        \/ In (InserterPut (destination Y) (rows data Y) None)
              (calls (LoadMetricsData data c)))
  /\ (forall Y, (position X < position Y)%nat ->
        forall call, In call (calls (LoadMetricsData data c)) ->
          call_table call <> Some (destination Y)).
Proof.
  intros Hin.
  destruct (Dispatch_put_failed _ _ _ _ (LoadMetricsData_Dispatch data c) _ _ _ Hin)
    as (l1 & X' & l2 & pre & resp & Hcut & Hdest & Hrows & Hres & Hcalls
        & Hbefore & Hpre).
  apply destination_inj in Hdest as <-.
  split; [exact Hres |]. split; [exact Hrows |].
  split; [now exists pre, resp |].
  split.
  - intros Y HY. apply (fixed_order_split _ _ _ Hcut) in HY.
    destruct (Hbefore Y HY) as [Hlen | Hput]; [now left | right].
    rewrite Hcalls. apply in_or_app. now left.
  - intros Y HY call Hcall. rewrite Hcalls in Hcall.
    apply in_app_or in Hcall as [Hcall | Hcall].
    + eapply calls_before_cut; [exact Hcut | exact Hpre | lia | exact Hcall].
    + assert (call_table call = Some (destination X)) as ->.
      { simpl in Hcall. destruct Hcall as [<- | [<- | []]]; reflexivity. }
      intros Heq. injection Heq as Heq. apply destination_inj in Heq. subst Y. lia.
Qed.

End LoaderTheorems.

Lemma write_failure_stops_dispatch_witness :
  outcome
    (@LoadMetricsData InMemory.shapes
       (InMemory.warehouse InMemory.never
          (InMemory.only "leases" (ErrOther "quota exceeded")))
       InMemory.images_leases_builds InMemory.no_tables)
  = Some (ErrWrap "failed to load leases: "
            (ErrWrap "failed to insert leases: " (ErrOther "quota exceeded")))
  /\ forall call,
       In call
         (calls
            (@LoadMetricsData InMemory.shapes
               (InMemory.warehouse InMemory.never
                  (InMemory.only "leases" (ErrOther "quota exceeded")))
               InMemory.images_leases_builds InMemory.no_tables)) ->
       call_table call <> Some "openshift_builds".
Proof.
  pose proof
    (@write_failure_stops_dispatch InMemory.shapes
       (InMemory.warehouse InMemory.never
          (InMemory.only "leases" (ErrOther "quota exceeded")))
       InMemory.images_leases_builds InMemory.no_tables CLeases
       (LeaseRows [Some InMemory.acquisition]) (ErrOther "quota exceeded"))
    as Hthm.
  destruct Hthm as (Hres & _ & _ & _ & Hafter).
  - vm_compute. tauto.
  - split; [exact Hres |].
    apply (Hafter CBuilds). simpl. lia.
Defined.

Section ConflictFacts.
Context `{Shapes} (W : Warehouse).

Lemma loadTable_conflict_blind table sh nn rws (c : @Client _ W) :
  same_effect (@loadTable _ W table sh nn rws c)
              (@loadTable _ (conflicts_as_created W) table sh nn rws c).
Proof.
  unfold same_effect, loadTable. simpl.
  destruct (len rws =? 0)%nat; [repeat split |].
  destruct (@bigquery_InferSchema _ W sh) as [schema | e]; [| repeat split].
  unfold bind, guard, bind, Create, Put, ret. simpl.
  destruct (@table_Create _ W table schema c) as [c' resp]. simpl.
  destruct resp as [e |]; simpl.
  - destruct (match errors_As_googleapi e with
              | Some code => code =? http_StatusConflict
              | None => false
              end) eqn:Hexists; simpl.
    + destruct (@inserter_Put _ W table rws c') as [c'' [e' |]]; repeat split.
    + rewrite Hexists. simpl. repeat split.
  - destruct (@inserter_Put _ W table rws c') as [c'' [e' |]]; repeat split.
Qed.

Lemma dispatch_load_conflict_blind (data : MetricsData) (order : list Category) :
  forall c : @Client _ W,
    same_effect (@dispatch_load _ W order data c)
                (@dispatch_load _ (conflicts_as_created W) order data c).
Proof.
  induction order as [|X order IH]; intros c.
  - repeat split.
  - simpl. rewrite !guard_run.
    destruct (loadTable_conflict_blind (destination X) (shape X) (noun X)
                (rows data X) c) as (Hfin & Hout & Hcalls).
    rewrite <- Hout.
    destruct (outcome (@loadTable _ W (destination X) (shape X) (noun X)
                         (rows data X) c)) as [e |].
    + repeat split; assumption.
    + cbn zeta. rewrite <- Hfin.
      destruct (IH (final (@loadTable _ W (destination X) (shape X) (noun X)
                             (rows data X) c))) as (Hfin' & Hout' & Hcalls').
      repeat split; simpl; try assumption.
      rewrite !map_app. now rewrite Hcalls, Hcalls'.
Qed.

End ConflictFacts.

Section ConflictTheorem.
Context `{Shapes}.

(** Where schema inference works, every [Create] succeeds or reports a
    conflict, and every [Put] succeeds, no step returns an error. *)
Lemma Dispatch_all_well `{!Warehouse} data order c r :
  (forall sh, exists schema, bigquery_InferSchema sh = Ok schema) ->
  (forall table schema c',
     snd (table_Create table schema c') = None
     \/ isAlreadyExistsError (snd (table_Create table schema c')) = true) ->
  (forall table rws c', snd (inserter_Put table rws c') = None) ->
  Dispatch data order c r ->
  outcome r = None.
Proof.
  intros Hschema Hcreate Hput.
  induction 1 as [c | X rest c r e0 Hstep Hout | X rest c r r' Hstep Hout Hrest IH].
  - reflexivity.
  - exfalso.
    destruct Hstep as [| e Hlen Hs | schema c' e Hlen Hs Hc Hno
                       | schema c' resp c'' e Hlen Hs Hc Hok Hp |];
      simpl in Hout; try discriminate Hout.
    + destruct (Hschema (shape X)) as [schema Hs']. congruence.
    + specialize (Hcreate (destination X) schema c). rewrite Hc in Hcreate.
      cbn [snd] in Hcreate. destruct Hcreate; congruence.
    + specialize (Hput (destination X) (rows data X) c'). rewrite Hp in Hput.
      discriminate Hput.
  - exact IH.
Qed.

(** C4.  (1) The dispatch cannot tell an already-exists conflict from a
    fresh creation: against a warehouse that answers success wherever
    [W] answers 409, [LoadMetricsData] makes the same requests, leaves the
    same client state and returns the same result.  (2) When schema
    inference works, every creation succeeds or conflicts and every insert
    succeeds, the dispatch returns nil and has inserted every non-empty
    category.  (3) A creation failure of any other kind for a category
    [X] is returned wrapped with the name of [X]; the failed creation is
    the last call, so nothing is inserted for [X] and no call addresses a
    later category. *)
Theorem create_conflict_is_success (W : Warehouse)
    (data : MetricsData) (c : @Client _ W) :
  same_effect (@LoadMetricsData _ W data c)
              (@LoadMetricsData _ (conflicts_as_created W) data c)
  /\ ((forall sh, exists schema, @bigquery_InferSchema _ W sh = Ok schema) ->
      (forall table schema c',
         snd (@table_Create _ W table schema c') = None
         \/ isAlreadyExistsError (snd (@table_Create _ W table schema c')) = true) ->
      (forall table rws c', snd (@inserter_Put _ W table rws c') = None) ->
      outcome (@LoadMetricsData _ W data c) = None
      /\ puts (calls (@LoadMetricsData _ W data c)) = plan fixed_order data)
  /\ (forall X e,
        In (TableCreate (destination X) (Some e))
           (calls (@LoadMetricsData _ W data c)) ->
        isAlreadyExistsError (Some e) = false ->
        outcome (@LoadMetricsData _ W data c)
          = Some (ErrWrap ("failed to load " +:+ noun X +:+ ": ")
                    (ErrWrap "failed to create table: " e))
        /\ (exists pre,
              calls (@LoadMetricsData _ W data c)
              = pre ++ [TableCreate (destination X) (Some e)])
        /\ (forall Y rws resp, (position X <= position Y)%nat ->
              ~ In (InserterPut (destination Y) rws resp)
                   (calls (@LoadMetricsData _ W data c)))
        /\ (forall Y, (position X < position Y)%nat ->
              forall call, In call (calls (@LoadMetricsData _ W data c)) ->
                call_table call <> Some (destination Y))).
Proof.
  split; [| split].
  - exact (dispatch_load_conflict_blind W data fixed_order c).
  - intros Hschema Hcreate Hput.
    pose proof (LoadMetricsData_Dispatch data c) as Hd.
    assert (outcome (@LoadMetricsData _ W data c) = None) as Hnone
      by (eapply Dispatch_all_well; eassumption).
    split; [exact Hnone |].
    eapply Dispatch_success; eassumption.
  - intros X e Hin Hno.
    destruct (Dispatch_create_failed _ _ _ _ (LoadMetricsData_Dispatch data c)
                _ _ Hin Hno)
      as (l1 & X' & l2 & pre & Hcut & Hdest & Hres & Hcalls & Hpre).
    apply destination_inj in Hdest as <-.
    split; [exact Hres |]. split; [now exists pre |].
    split.
    + intros Y rws resp HY Hput. rewrite Hcalls in Hput.
      apply in_app_or in Hput as [Hput | Hput].
      * eapply calls_before_cut; [exact Hcut | exact Hpre | exact HY | exact Hput |].
        reflexivity.
      * simpl in Hput. destruct Hput as [Hput | []]. discriminate Hput.
    + intros Y HY call Hcall. rewrite Hcalls in Hcall.
      apply in_app_or in Hcall as [Hcall | Hcall].
      * eapply calls_before_cut; [exact Hcut | exact Hpre | lia | exact Hcall].
      * simpl in Hcall. destruct Hcall as [<- | []]. simpl.
        intros Heq. injection Heq as Heq. apply destination_inj in Heq.
        subst Y. lia.
Qed.

End ConflictTheorem.

Lemma create_conflict_is_success_witness :
  outcome
    (@LoadMetricsData InMemory.shapes
       (InMemory.warehouse InMemory.never InMemory.never)
       InMemory.images_leases_builds InMemory.leases_table_exists)
  = None
  /\ outcome
       (@LoadMetricsData InMemory.shapes
          (InMemory.warehouse
             (InMemory.only "leases" (ErrGoogleAPI 403 "Access Denied"))
             InMemory.never)
          InMemory.images_leases_builds InMemory.no_tables)
     = Some (ErrWrap "failed to load leases: "
               (ErrWrap "failed to create table: "
                  (ErrGoogleAPI 403 "Access Denied"))).
Proof.
  split.
  - destruct (create_conflict_is_success
                (InMemory.warehouse InMemory.never InMemory.never)
                InMemory.images_leases_builds InMemory.leases_table_exists)
      as (_ & Hwell & _).
    apply Hwell.
    + intros sh. exists sh. reflexivity.
    + intros table schema c'. simpl.
      destruct (bool_decide (table ∈ InMemory.existing c')); [right | left];
        reflexivity.
    + intros table rws c'. reflexivity.
  - destruct (create_conflict_is_success
                (InMemory.warehouse
                   (InMemory.only "leases" (ErrGoogleAPI 403 "Access Denied"))
                   InMemory.never)
                InMemory.images_leases_builds InMemory.no_tables)
      as (_ & _ & Hfail).
    apply (Hfail CLeases (ErrGoogleAPI 403 "Access Denied")).
    + vm_compute. tauto.
    + reflexivity.
Defined.

(** ** The file exporter *)

Section ExporterFacts.
Context `{Shapes} `{!FileSystem} `{!JSONEncoder}.

(** The code is the protocol run over the export order. *)
Lemma exportMetricsData_dispatch (data : MetricsData) (exportDir : string) :
  exportMetricsData data exportDir = dispatch_export export_order data exportDir.
Proof. reflexivity. Qed.

Lemma exportTable_items exportDir filename data :
  exportTable exportDir filename data =
  (check (create (filepath_Join exportDir filename))
   or ("failed to create " +:+ filename +:+ ": ") ;;
   match items data with
   | Some its => encode_range (filepath_Join exportDir filename) its
   | None => ret (Some (ErrOther "unsupported data type for export"))
   end).
Proof. destruct data; reflexivity. Qed.

Lemma append_empty_r (s : string) : s +:+ "" = s.
Proof. induction s as [|a s IH]; [reflexivity |]. rewrite append_cons. now rewrite IH. Qed.

Lemma ndjson_prefix texts e rest :
  ndjson (map Ok texts ++ Fail e :: rest) = ndjson (map Ok texts).
Proof. induction texts as [|t texts IH]; simpl; [reflexivity | now rewrite IH]. Qed.

(** One turn of the loop on an item that was marshalled. *)
Lemma encode_range_step path t its fs acc :
  fs !! path = Some acc ->
  encode_range path (Ok t :: its) fs
  = match file_Write path acc (t +:+ newline) with
    | None =>
        let r := encode_range path its (<[path := acc +:+ t +:+ newline]> fs) in
        MkRun (final r) (Encode path (Ok t) :: calls r) (outcome r)
    | Some (n, e) =>
        MkRun (<[path := acc +:+ substring 0 n (t +:+ newline)]> fs)
              [Encode path (Ok t)] (Errorf "failed to encode item: " e)
    end.
Proof.
  intros Hacc. cbn [encode_range]. rewrite guard_run. unfold encode.
  rewrite Hacc. cbn [default from_option id].
  destruct (file_Write path acc (t +:+ newline)) as [[n e] |]; reflexivity.
Qed.

Lemma encode_calls path item fs : calls (encode path item fs) = [Encode path item].
Proof.
  unfold encode. destruct item as [text | e]; [| reflexivity].
  destruct (file_Write _ _ _) as [[n e] |]; reflexivity.
Qed.

Lemma encode_range_calls_cons path it its fs :
  calls (encode_range path (it :: its) fs)
  = Encode path it
      :: match outcome (encode path it fs) with
         | Some _ => []
         | None => calls (encode_range path its (final (encode path it fs)))
         end.
Proof.
  cbn [encode_range]. rewrite guard_run.
  destruct (outcome (encode path it fs)); cbn [calls]; now rewrite encode_calls.
Qed.

(** The two ways the loop can go on a file that holds [acc]: every item is
    marshalled and written; or it stops at the first item that cannot be
    marshalled, or whose write fails after some of its bytes. *)
Lemma encode_range_cases (path : string) (its : list (result string)) :
  forall acc,
    (exists texts,
       its = map Ok texts
       /\ forall fs, fs !! path = Some acc ->
            encode_range path its fs
            = MkRun (<[path := acc +:+ ndjson (map Ok texts)]> fs)
                    (map (fun t => Encode path (Ok t)) texts) None)
    \/ (exists texts it rest e written,
          its = map Ok texts ++ it :: rest
          /\ (forall fs, fs !! path = Some acc ->
                encode_range path its fs
                = MkRun (<[path := acc +:+ ndjson (map Ok texts) +:+ written]> fs)
                        (map (fun t => Encode path (Ok t)) texts ++ [Encode path it])
                        (Errorf "failed to encode item: " e))
          /\ ((it = Fail e /\ written = "")
              \/ exists t n,
                   it = Ok t
                   /\ file_Write path (acc +:+ ndjson (map Ok texts)) (t +:+ newline)
                      = Some (n, e)
                   /\ written = substring 0 n (t +:+ newline))).
Proof.
  induction its as [|[t | e] its IH]; intros acc.
  - left. exists []. split; [reflexivity |]. intros fs Hacc.
    cbn. unfold ret. f_equal. rewrite append_empty_r. symmetry. now apply insert_id.
  - destruct (file_Write path acc (t +:+ newline)) as [[n e] |] eqn:Hwrite.
    + right. exists [], (Ok t), its, e, (substring 0 n (t +:+ newline)).
      split; [reflexivity |]. split.
      * intros fs Hacc. rewrite (encode_range_step _ _ _ _ _ Hacc), Hwrite.
        reflexivity.
      * right. exists t, n. cbn [map ndjson]. rewrite append_empty_r. now repeat split.
    + destruct (IH (acc +:+ t +:+ newline))
        as [(texts & -> & Hrun)
           | (texts & it & rest & e & written & -> & Hrun & Hwhy)].
      * left. exists (t :: texts). split; [reflexivity |]. intros fs Hacc.
        rewrite (encode_range_step _ _ _ _ _ Hacc), Hwrite.
        rewrite (Hrun _ (lookup_insert_eq _ _ _)). cbn.
        rewrite insert_insert_eq, !append_assoc. reflexivity.
      * right. exists (t :: texts), it, rest, e, written.
        split; [reflexivity |]. split.
        -- intros fs Hacc. cbn [map app].
           rewrite (encode_range_step _ _ _ _ _ Hacc), Hwrite.
           rewrite (Hrun _ (lookup_insert_eq _ _ _)). cbn.
           rewrite insert_insert_eq, !append_assoc. reflexivity.
        -- destruct Hwhy as [Hfail | (t' & n & -> & Hw & ->)]; [now left | right].
           exists t', n. cbn [map ndjson].
           rewrite !append_assoc in Hw. now repeat split.
  - right. exists [], (Fail e), its, e, "".
    split; [reflexivity |]. split.
    + intros fs Hacc. cbn [encode_range]. rewrite guard_run. cbn.
      f_equal. rewrite !append_empty_r. symmetry. now apply insert_id.
    + left. now split.
Qed.

(** Once the file holds [acc], encoding [its] leaves [acc] followed by what
    was written; that text, the calls and the result do not depend on the
    rest of the disk.  With result nil every item was marshalled and the
    text is one line per item. *)
Lemma encode_range_run (path : string) (its : list (result string)) :
  forall acc,
    exists text cs a,
      (forall fs, fs !! path = Some acc ->
         encode_range path its fs = MkRun (<[path := acc +:+ text]> fs) cs a)
      /\ (a = None -> exists texts, its = map Ok texts /\ text = ndjson (map Ok texts)).
Proof.
  intros acc.
  destruct (encode_range_cases path its acc)
    as [(texts & -> & Hrun) | (texts & it & rest & e & written & -> & Hrun & _)].
  - eexists _, _, _. split; [exact Hrun |]. intros _. now exists texts.
  - eexists _, _, _. split; [exact Hrun |]. discriminate.
Qed.

(** What [exportTable] does, for each of its three courses. *)
Lemma exportTable_run exportDir filename data :
  let path := filepath_Join exportDir filename in
  match os_Create path, items data with
  | Some e, _ =>
      forall fs, exportTable exportDir filename data fs =
        MkRun fs [OsCreate path (Some e)]
              (Errorf ("failed to create " +:+ filename +:+ ": ") e)
  | None, None =>
      forall fs, exportTable exportDir filename data fs =
        MkRun (<[path := ""]> fs) [OsCreate path None]
              (Some (ErrOther "unsupported data type for export"))
  | None, Some its =>
      exists text cs a,
        (forall fs,
           exportTable exportDir filename data fs
           = MkRun (<[path := text]> fs) (OsCreate path None :: cs) a)
        /\ (a = None -> exists texts, its = map Ok texts /\ text = ndjson (map Ok texts))
  end.
Proof.
  intros path. rewrite exportTable_items. fold path.
  destruct (os_Create path) as [e |] eqn:Hcreate.
  - intros fs. rewrite guard_run. unfold create. rewrite Hcreate. reflexivity.
  - destruct (items data) as [its |].
    + destruct (encode_range_run path its "") as (text & cs & a & Hrun & Hok).
      exists text, cs, a. split; [| exact Hok].
      intros fs. rewrite guard_run. unfold create. rewrite Hcreate.
      cbn zeta. cbn [outcome final calls].
      rewrite (Hrun (<[path := ""]> fs) (lookup_insert_eq _ _ _)).
      cbn. now rewrite insert_insert_eq.
    + intros fs. rewrite guard_run. unfold create. rewrite Hcreate. reflexivity.
Qed.

(** After a successful [os.Create]: every item is marshalled and written,
    or the export of the table stops at the first item that cannot be
    marshalled or written. *)
Lemma exportTable_cases exportDir filename data its :
  os_Create (filepath_Join exportDir filename) = None ->
  items data = Some its ->
  (exists texts,
     its = map Ok texts
     /\ forall fs,
          exportTable exportDir filename data fs
          = MkRun (<[filepath_Join exportDir filename := ndjson (map Ok texts)]> fs)
                  (OsCreate (filepath_Join exportDir filename) None
                     :: map (fun t => Encode (filepath_Join exportDir filename) (Ok t))
                          texts)
                  None)
  \/ (exists texts it rest e written,
        its = map Ok texts ++ it :: rest
        /\ (forall fs,
              exportTable exportDir filename data fs
              = MkRun (<[filepath_Join exportDir filename
                         := ndjson (map Ok texts) +:+ written]> fs)
                      (OsCreate (filepath_Join exportDir filename) None
                         :: map (fun t => Encode (filepath_Join exportDir filename) (Ok t))
                              texts
                         ++ [Encode (filepath_Join exportDir filename) it])
                      (Errorf "failed to encode item: " e))
        /\ ((it = Fail e /\ written = "")
            \/ exists t n,
                 it = Ok t
                 /\ file_Write (filepath_Join exportDir filename)
                      (ndjson (map Ok texts)) (t +:+ newline) = Some (n, e)
                 /\ written = substring 0 n (t +:+ newline))).
Proof.
  intros Hcreate Hits.
  set (path := filepath_Join exportDir filename) in *.
  assert (forall fs,
            exportTable exportDir filename data fs
            = let r := encode_range path its (<[path := ""]> fs) in
              MkRun (final r) (OsCreate path None :: calls r) (outcome r)) as Hrun.
  { intros fs. rewrite exportTable_items. fold path. rewrite guard_run.
    unfold create. rewrite Hcreate, Hits. reflexivity. }
  destruct (encode_range_cases path its "")
    as [(texts & -> & Henc) | (texts & it & rest & e & written & -> & Henc & Hwhy)].
  - left. exists texts. split; [reflexivity |]. intros fs.
    rewrite Hrun, (Henc _ (lookup_insert_eq _ _ _)). cbn.
    now rewrite insert_insert_eq.
  - right. exists texts, it, rest, e, written. split; [reflexivity |]. split.
    + intros fs. rewrite Hrun, (Henc _ (lookup_insert_eq _ _ _)). cbn.
      now rewrite insert_insert_eq.
    + exact Hwhy.
Qed.

End ExporterFacts.

Section Blindness.
Context `{Shapes} `{!FileSystem} `{!JSONEncoder}.

Lemma write_all_app ws ws' (fs : gmap string string) :
  write_all (ws ++ ws') fs = write_all ws' (write_all ws fs).
Proof. unfold write_all. apply foldl_app. Qed.

(** A write that is overwritten at the end leaves no trace. *)
Lemma write_all_overwritten ws (path text text' : string) :
  forall fs : gmap string string,
    <[path := text]> (write_all ws (<[path := text']> fs))
    = <[path := text]> (write_all ws fs).
Proof.
  induction ws as [|[p u] ws IH]; intros fs; simpl.
  - apply insert_insert_eq.
  - destruct (decide (p = path)) as [-> | Hne].
    + now rewrite insert_insert_eq.
    + rewrite (insert_insert_ne _ p path) by exact Hne. apply IH.
Qed.

Lemma write_all_twice ws :
  forall fs : gmap string string,
    write_all ws (write_all ws fs) = write_all ws fs.
Proof.
  induction ws as [|[p u] ws IH] using rev_ind; intros fs; [reflexivity |].
  rewrite !write_all_app. simpl.
  rewrite write_all_overwritten. now rewrite IH.
Qed.

Lemma blind_ret {A} (a : A) : blind (ret a).
Proof. exists [], [], a. reflexivity. Qed.

Lemma blind_guard (m rest : Op (gmap string string) (option GoError)) prefix :
  blind m -> blind rest -> blind (guard m prefix rest).
Proof.
  intros (ws & cs & a & Hm) (ws' & cs' & a' & Hrest).
  destruct a as [e |].
  - exists ws, cs, (Errorf prefix e). intros fs.
    rewrite guard_run, Hm. reflexivity.
  - exists (ws ++ ws'), (cs ++ cs'), a'. intros fs.
    rewrite guard_run, Hm. simpl. rewrite Hrest. simpl.
    now rewrite write_all_app.
Qed.

Lemma blind_mkdirAll dir : blind (mkdirAll dir).
Proof. exists [], [MkdirAll dir (os_MkdirAll dir)], (os_MkdirAll dir). reflexivity. Qed.

(** [exportTable] truncates: what the file holds afterwards does not
    depend on what it held before. *)
Lemma blind_exportTable dir filename data :
  blind (exportTable dir filename data).
Proof.
  pose proof (exportTable_run dir filename data) as Hrun. cbn zeta in Hrun.
  destruct (os_Create (filepath_Join dir filename)) as [e |].
  - eexists [], _, _. intros fs. rewrite Hrun. reflexivity.
  - destruct (items data) as [its |].
    + destruct Hrun as (text & cs & a & Hrun & _).
      exists [(filepath_Join dir filename, text)],
             (OsCreate (filepath_Join dir filename) None :: cs), a.
      intros fs. now rewrite Hrun.
    + eexists [(filepath_Join dir filename, "")], _, _. intros fs.
      rewrite Hrun. reflexivity.
Qed.

Lemma blind_dispatch_export order (data : MetricsData) dir :
  blind (dispatch_export order data dir).
Proof.
  unfold dispatch_export. apply blind_guard; [apply blind_mkdirAll |].
  induction order as [|X order IH]; simpl.
  - apply blind_ret.
  - destruct (0 <? len (rows data X))%nat; [| exact IH].
    apply blind_guard; [apply blind_exportTable | exact IH].
Qed.

Lemma blind_twice {A} (m : Op (gmap string string) A) :
  blind m -> forall fs, m (final (m fs)) = m fs.
Proof.
  intros (ws & cs & a & Hm) fs. rewrite !Hm. simpl.
  now rewrite write_all_twice.
Qed.

End Blindness.

(** C10.  [exportMetricsData] writes each file whole: the files it leaves,
    the calls it makes and its result do not depend on what the directory
    held.  Run again on its own output, it therefore ends with the same
    files as after the first run.  The loader is different: a second pass
    that succeeds hands the warehouse the rows of every non-empty category
    again. *)
Theorem export_twice_same_files `{Shapes} `{!FileSystem} `{!JSONEncoder}
    `{!Warehouse} (data : MetricsData) (exportDir : string) :
  blind (exportMetricsData data exportDir)
  /\ (forall fs,
        exportMetricsData data exportDir (final (exportMetricsData data exportDir fs))
        = exportMetricsData data exportDir fs)
  /\ (forall c,
        outcome (LoadMetricsData data c) = None ->
        outcome (LoadMetricsData data (final (LoadMetricsData data c))) = None ->
        puts (calls (LoadMetricsData data (final (LoadMetricsData data c))))
        = puts (calls (LoadMetricsData data c))
        /\ puts (calls (LoadMetricsData data c)) = plan fixed_order data).
Proof.
  assert (blind (exportMetricsData data exportDir)) as Hblind.
  { rewrite exportMetricsData_dispatch. apply blind_dispatch_export. }
  split; [exact Hblind |]. split; [now apply blind_twice |].
  intros c Hfirst Hsecond.
  rewrite (Dispatch_success _ _ _ _ (LoadMetricsData_Dispatch data _) Hsecond).
  rewrite (Dispatch_success _ _ _ _ (LoadMetricsData_Dispatch data _) Hfirst).
  split; reflexivity.
Qed.

Lemma export_twice_same_files_witness :
  puts
    (calls
       (@LoadMetricsData InMemory.shapes
          (InMemory.warehouse InMemory.never InMemory.never)
          InMemory.three_pods
          (final
             (@LoadMetricsData InMemory.shapes
                (InMemory.warehouse InMemory.never InMemory.never)
                InMemory.three_pods InMemory.no_tables))))
  = puts
      (calls
         (@LoadMetricsData InMemory.shapes
            (InMemory.warehouse InMemory.never InMemory.never)
            InMemory.three_pods InMemory.no_tables)).
Proof.
  destruct (@export_twice_same_files InMemory.shapes InMemory.disk
              InMemory.encoder
              (InMemory.warehouse InMemory.never InMemory.never)
              InMemory.three_pods "out")
    as (_ & _ & Hagain).
  apply (Hagain InMemory.no_tables); reflexivity.
Defined.

(** C6, as the code has it.  For a document whose seven sequences are all
    empty, the dispatch returns nil, makes no call at all and leaves the
    client as it was.  The export makes one call, the [MkdirAll] of the
    target directory, creates no file and writes nothing; it returns nil
    when that call succeeds and [failed to create export directory: ]
    around its error when it fails. *)
Theorem empty_document_no_calls `{Shapes} `{!Warehouse} `{!FileSystem}
    `{!JSONEncoder} (data : MetricsData) (c : Client)
    (exportDir : string) (fs : gmap string string) :
  (forall X, len (rows data X) = 0%nat) ->
  LoadMetricsData data c = MkRun c [] None
  /\ exportMetricsData data exportDir fs
     = MkRun fs [MkdirAll exportDir (os_MkdirAll exportDir)]
         match os_MkdirAll exportDir with
         | Some e => Some (ErrWrap "failed to create export directory: " e)
         | None => None
         end.
Proof.
  intros Hempty.
  pose proof (Hempty CImages) as Himages. pose proof (Hempty CNodes) as Hnodes.
  pose proof (Hempty CInsights) as Hinsights. pose proof (Hempty CLeases) as Hleases.
  pose proof (Hempty CBuilds) as Hbuilds. pose proof (Hempty CPods) as Hpods.
  pose proof (Hempty CEvents) as Hevents. clear Hempty.
  destruct data as [evs ims les nos bus pos ins]. simpl in *.
  apply nil_length_inv in Himages, Hnodes, Hinsights, Hleases, Hbuilds, Hpods, Hevents.
  subst. split; [reflexivity |].
  unfold exportMetricsData. rewrite guard_run.
  unfold mkdirAll. simpl. destruct (os_MkdirAll exportDir); reflexivity.
Qed.

Lemma empty_document_no_calls_witness :
  @LoadMetricsData InMemory.shapes
    (InMemory.warehouse InMemory.never InMemory.never)
    InMemory.empty_document InMemory.no_tables
  = MkRun InMemory.no_tables [] None
  /\ @exportMetricsData InMemory.shapes InMemory.disk InMemory.encoder
       InMemory.empty_document "out" ∅
     = MkRun ∅ [MkdirAll "out" None] None.
Proof.
  apply (@empty_document_no_calls InMemory.shapes
           (InMemory.warehouse InMemory.never InMemory.never)
           InMemory.disk InMemory.encoder
           InMemory.empty_document InMemory.no_tables "out" ∅).
  intros X. destruct X; reflexivity.
Defined.

(** C6, as stated, does not hold: where the target directory cannot be
    made, the export of a document whose seven sequences are all empty
    returns an error. *)
Lemma empty_export_fails_without_directory :
  (forall X, len (rows InMemory.empty_document X) = 0%nat)
  /\ @exportMetricsData InMemory.shapes Scenarios.no_directory InMemory.encoder
       InMemory.empty_document "out" ∅
     = MkRun ∅ [MkdirAll "out" (Some (ErrOther "read-only file system"))]
         (Some (ErrWrap "failed to create export directory: "
                  (ErrOther "read-only file system"))).
Proof. split; [intros X; destruct X |]; reflexivity. Qed.

(** C7.  For a document with exactly one lease record whose release-side
    fields are unset, the object written for the record has neither the
    key [release_duration_seconds] nor the key [leases_available_at_release],
    and that object is the one line the export encodes into
    [leases.json]. *)
Theorem acquisition_lease_omits_release_keys `{Shapes} `{!FileSystem}
    `{!JSONEncoder} (data : MetricsData) (r : LeaseEventUnion.t)
    (exportDir : string) (fs : gmap string string) :
  Leases data = [Some r] ->
  LeaseEventUnion.ReleaseDurationSeconds r = 0 ->
  LeaseEventUnion.LeasesAvailableAtRelease r = 0 ->
  ~ In "release_duration_seconds" (json_keys (LeaseEventUnion.fields r))
  /\ ~ In "leases_available_at_release" (json_keys (LeaseEventUnion.fields r))
  /\ (os_Create (filepath_Join exportDir "leases.json") = None ->
      calls (exportTable exportDir "leases.json" (LeaseRows (Leases data)) fs)
      = [OsCreate (filepath_Join exportDir "leases.json") None;
         Encode (filepath_Join exportDir "leases.json")
                (render_object (json_members (LeaseEventUnion.fields r)))]).
Proof.
  intros Hone Hduration Havailable.
  split; [| split].
  - rewrite json_keys_spec. intros (f & Hin & Hname & Hkept).
    simpl in Hin.
    repeat (destruct Hin as [<- | Hin]; [try discriminate Hname |]);
      [| contradiction].
    rewrite Hduration in Hkept. discriminate Hkept.
  - rewrite json_keys_spec. intros (f & Hin & Hname & Hkept).
    simpl in Hin.
    repeat (destruct Hin as [<- | Hin]; [try discriminate Hname |]);
      [| contradiction].
    rewrite Havailable in Hkept. discriminate Hkept.
  - intros Hcreate. rewrite Hone. unfold exportTable.
    rewrite guard_run. unfold create. rewrite Hcreate.
    cbn [outcome final calls map Marshal_ptr encode_range].
    rewrite guard_run. unfold encode, Marshal_LeaseEventUnion.
    destruct (render_object (json_members (LeaseEventUnion.fields r)))
      as [text | e]; [| reflexivity].
    destruct (file_Write _ _ _) as [[n e] |]; reflexivity.
Qed.

Lemma acquisition_lease_omits_release_keys_witness :
  ~ In "release_duration_seconds"
       (json_keys (LeaseEventUnion.fields InMemory.acquisition))
  /\ ~ In "leases_available_at_release"
          (json_keys (LeaseEventUnion.fields InMemory.acquisition)).
Proof.
  destruct (@acquisition_lease_omits_release_keys InMemory.shapes InMemory.disk
              InMemory.encoder InMemory.leases_and_insights
              InMemory.acquisition "out" ∅)
    as (Hduration & Havailable & _); try reflexivity.
  split; assumption.
Defined.

(** ** Reading an exported file back *)

Section Lines.




End Lines.

Section ExportedFiles.
Context `{Shapes} `{!FileSystem} `{!JSONEncoder}.
Variables (data : MetricsData) (exportDir : string).

(** The pass over the categories, after the directory was made. *)
Let pass (order : list Category) : Op (gmap string string) (option GoError) :=
  fold_right
    (fun X rest =>
       if (0 <? len (rows data X))%nat
       then check (exportTable exportDir (export_file X) (rows data X))
            or ("failed to export " +:+ noun X +:+ ": ") ;;
            rest
       else rest)
    (ret None) order.

Lemma exportTable_other filename d path fs :
  filepath_Join exportDir filename <> path ->
  final (exportTable exportDir filename d fs) !! path = fs !! path.
Proof.
  intros Hne.
  pose proof (exportTable_run exportDir filename d) as Hrun. cbn zeta in Hrun.
  destruct (os_Create (filepath_Join exportDir filename)) as [e |].
  - now rewrite Hrun.
  - destruct (items d) as [its |].
    + destruct Hrun as (text & cs & a & Hrun & _). rewrite Hrun.
      simpl. now rewrite lookup_insert_ne.
    + rewrite Hrun. simpl. now rewrite lookup_insert_ne.
Qed.

Lemma pass_other (order : list Category) (path : string) :
  (forall X, In X order -> filepath_Join exportDir (export_file X) <> path) ->
  forall fs, final (pass order fs) !! path = fs !! path.
Proof.
  induction order as [|X order IH]; intros Hne fs; [reflexivity |].
  cbn [pass fold_right].
  assert (forall fs', final (pass order fs') !! path = fs' !! path) as IH'.
  { apply IH. intros Y HY. apply Hne. now right. }
  destruct (0 <? len (rows data X))%nat; [| apply IH'].
  rewrite guard_run.
  destruct (outcome (exportTable exportDir (export_file X) (rows data X) fs));
    cbn [final]; [| fold (pass order); rewrite IH'];
    apply exportTable_other, Hne; now left.
Qed.

Lemma pass_app (before after : list Category) fs :
  outcome (pass (before ++ after) fs) = None ->
  outcome (pass before fs) = None
  /\ outcome (pass after (final (pass before fs))) = None
  /\ final (pass (before ++ after) fs) = final (pass after (final (pass before fs))).
Proof.
  revert fs. induction before as [|Y before IH]; intros fs Hout.
  - now repeat split.
  - cbn [app pass fold_right] in *. fold (pass before) in *.
    fold (pass (before ++ after)) in *.
    destruct (0 <? len (rows data Y))%nat; [| now apply IH].
    rewrite !guard_run in *.
    destruct (outcome (exportTable exportDir (export_file Y) (rows data Y) fs));
      [discriminate Hout |].
    cbn zeta in *. cbn [final outcome] in *. now apply IH.
Qed.

(** After a pass that returned no error, the file of a non-empty category
    of the pass holds the lines of that category, provided the categories
    that come later in the pass are written to other files. *)
Lemma pass_written_at (before after : list Category) (X : Category) :
  (forall Y, In Y after ->
     filepath_Join exportDir (export_file Y) <> filepath_Join exportDir (export_file X)) ->
  forall fs,
    len (rows data X) <> 0%nat ->
    outcome (pass (before ++ X :: after) fs) = None ->
    exists texts,
      items (rows data X) = Some (map Ok texts)
      /\ final (pass (before ++ X :: after) fs) !! filepath_Join exportDir (export_file X)
         = Some (ndjson (map Ok texts)).
Proof.
  intros Hlater fs Hlen Hout.
  destruct (pass_app before (X :: after) fs Hout) as (_ & Hrest & ->).
  set (fs1 := final (pass before fs)) in *. clearbody fs1.
  cbn [pass fold_right] in *. fold (pass after) in *.
  destruct (0 <? len (rows data X))%nat eqn:HlenX;
    [| apply Nat.ltb_ge in HlenX; lia].
  rewrite guard_run in *.
  pose proof (exportTable_run exportDir (export_file X) (rows data X)) as Hrun.
  cbn zeta in Hrun.
  destruct (outcome (exportTable exportDir (export_file X) (rows data X) fs1))
    as [e |] eqn:HoutX; [discriminate Hrest |].
  cbn [final outcome] in *.
  rewrite pass_other by exact Hlater.
  destruct (os_Create (filepath_Join exportDir (export_file X))) as [e |].
  { rewrite Hrun in HoutX. discriminate HoutX. }
  destruct (items (rows data X)) as [its |].
  - destruct Hrun as (text & cs & a & Hrun & Hok).
    rewrite Hrun in HoutX. cbn in HoutX.
    destruct (Hok HoutX) as (texts & -> & ->).
    exists texts. split; [reflexivity |]. rewrite Hrun. cbn.
    apply lookup_insert_eq.
  - rewrite Hrun in HoutX. discriminate HoutX.
Qed.

(** After a pass that returned no error and whose categories are written
    to files that differ, the file of every non-empty category of the pass
    holds the lines of that category. *)
Lemma pass_written (order : list Category) :
  NoDup (map (fun X => filepath_Join exportDir (export_file X)) order) ->
  forall fs X,
    In X order ->
    len (rows data X) <> 0%nat ->
    outcome (pass order fs) = None ->
    exists texts,
      items (rows data X) = Some (map Ok texts)
      /\ final (pass order fs) !! filepath_Join exportDir (export_file X)
         = Some (ndjson (map Ok texts)).
Proof.
  intros Hnd fs X HX Hlen Hout.
  apply in_split in HX as (before & after & ->).
  apply pass_written_at; try assumption.
  intros Y HY Heq.
  rewrite map_app in Hnd. apply NoDup_app in Hnd as (_ & _ & Hnd).
  cbn [map] in Hnd. apply NoDup_cons in Hnd as [Hfresh _].
  apply Hfresh. apply list_elem_of_In. rewrite <- Heq.
  apply in_map_iff. now exists Y.
Qed.

End ExportedFiles.

Section RoundTrip.
Context `{Shapes} `{!FileSystem} `{!JSONEncoder}.

(** Where the paths of a list of categories differ, the path tells the
    category. *)
Lemma NoDup_paths_inj (exportDir : string) (order : list Category) (X Y : Category) :
  NoDup (map (fun X => filepath_Join exportDir (export_file X)) order) ->
  In X order -> In Y order ->
  filepath_Join exportDir (export_file X) = filepath_Join exportDir (export_file Y) ->
  X = Y.
Proof.
  induction order as [|Z order IH]; intros Hnd HX HY Heq; [contradiction |].
  cbn [map] in Hnd. apply NoDup_cons in Hnd as [Hfresh Hnd].
  destruct HX as [-> | HX], HY as [-> | HY].
  - reflexivity.
  - exfalso. apply Hfresh. apply list_elem_of_In. rewrite Heq.
    apply in_map_iff. now exists Y.
  - exfalso. apply Hfresh. apply list_elem_of_In. rewrite <- Heq.
    apply in_map_iff. now exists X.
  - now apply IH.
Qed.

Lemma In_export_order (X : Category) : In X export_order.
Proof. destruct X; simpl; tauto. Qed.


End RoundTrip.



(** ** The two sinks side by side *)

Section TwoSinks.
Context `{Shapes} `{!FileSystem} `{!JSONEncoder}.

Lemma put_tables_puts (cs : list Call) : put_tables cs = map fst (puts cs).
Proof.
  unfold put_tables, puts.
  induction cs as [|call cs IH]; [reflexivity |].
  destruct call; cbn; rewrite ?IH; reflexivity.
Qed.

Lemma encode_range_creates_nothing path its fs :
  created_files (calls (encode_range path its fs)) = [].
Proof.
  revert fs. induction its as [|it its IH]; intros fs; [reflexivity |].
  rewrite encode_range_calls_cons.
  destruct (outcome (encode path it fs)); [reflexivity | apply IH].
Qed.

(** [exportTable] calls [os.Create] once, on its file. *)
Lemma exportTable_creates exportDir filename d fs :
  created_files (calls (exportTable exportDir filename d fs))
  = [filepath_Join exportDir filename].
Proof.
  rewrite exportTable_items, guard_run. unfold create.
  destruct (os_Create (filepath_Join exportDir filename)); [reflexivity |].
  simpl. destruct (items d); [| reflexivity].
  unfold created_files in *. simpl. f_equal.
  apply encode_range_creates_nothing.
Qed.

Lemma dispatch_export_creates (data : MetricsData) exportDir order fs :
  outcome (dispatch_export order data exportDir fs) = None ->
  created_files (calls (dispatch_export order data exportDir fs))
  = map (fun X => filepath_Join exportDir (export_file X)) (nonempty data order).
Proof.
  unfold dispatch_export. rewrite guard_run.
  destruct (outcome (mkdirAll exportDir fs)); [discriminate |].
  unfold mkdirAll. cbn [final calls outcome].
  unfold created_files. rewrite omap_app. simpl. clear.
  revert fs. induction order as [|X order IH]; intros fs Hout; [reflexivity |].
  cbn [fold_right] in *. unfold nonempty in *. cbn [List.filter].
  destruct (len (rows data X)) as [|n] eqn:Hlen;
    cbn [Nat.ltb Nat.leb Nat.eqb negb] in *.
  - now apply IH.
  - rewrite guard_run in *.
    destruct (outcome (exportTable exportDir (export_file X) (rows data X) fs));
      [discriminate Hout |].
    cbn [final calls outcome] in *. rewrite omap_app.
    pose proof (exportTable_creates exportDir (export_file X) (rows data X) fs)
      as Hcreate.
    unfold created_files in Hcreate. rewrite Hcreate. simpl. f_equal.
    now apply IH.
Qed.

(** C1, as the code has it.  Both sinks take the same [MetricsData] and
    run the same protocol under the same category-to-name mapping, a file
    being named after the table with [.json] appended.  A pass that
    returns nil has written exactly the non-empty categories: the loader
    in the order images, nodes, insights, leases, builds, pods, events;
    the exporter in the order images, nodes, leases, builds, pods,
    insights, events.  The two orders hold the same seven categories. *)
Theorem sinks_share_mapping `{!Warehouse} (data : MetricsData) :
  LoadMetricsData data = dispatch_load fixed_order data
  /\ (forall exportDir,
        exportMetricsData data exportDir
        = dispatch_export export_order data exportDir)
  /\ (forall c,
        outcome (LoadMetricsData data c) = None ->
        put_tables (calls (LoadMetricsData data c))
        = map destination (nonempty data fixed_order))
  /\ (forall exportDir fs,
        outcome (exportMetricsData data exportDir fs) = None ->
        created_files (calls (exportMetricsData data exportDir fs))
        = map (fun X => filepath_Join exportDir (destination X +:+ ".json"))
              (nonempty data export_order))
  /\ Permutation fixed_order export_order.
Proof.
  split; [reflexivity |]. split; [reflexivity |]. split; [| split].
  - intros c Hout.
    pose proof (Dispatch_success _ _ _ _ (LoadMetricsData_Dispatch data c) Hout)
      as Hputs.
    rewrite put_tables_puts, Hputs. unfold plan. now rewrite map_map.
  - intros exportDir fs Hout.
    exact (dispatch_export_creates data exportDir export_order fs Hout).
  - unfold fixed_order, export_order.
    do 2 apply perm_skip.
    change ([CInsights; CLeases; CBuilds; CPods; CEvents])
      with ([CInsights] ++ [CLeases; CBuilds; CPods] ++ [CEvents]).
    change ([CLeases; CBuilds; CPods; CInsights; CEvents])
      with ([CLeases; CBuilds; CPods] ++ [CInsights] ++ [CEvents]).
    rewrite !app_assoc. apply Permutation_app_tail, Permutation_app_comm.
Qed.

End TwoSinks.

Lemma sinks_share_mapping_witness :
  put_tables
    (calls (@LoadMetricsData InMemory.shapes
              (InMemory.warehouse InMemory.never InMemory.never)
              InMemory.images_leases_builds InMemory.no_tables))
  = ["images"; "leases"; "openshift_builds"]
  /\ created_files
       (calls (@exportMetricsData InMemory.shapes InMemory.disk InMemory.encoder
                 InMemory.images_leases_builds "out" ∅))
     = ["out/images.json"; "out/leases.json"; "out/openshift_builds.json"].
Proof.
  destruct (@sinks_share_mapping InMemory.shapes InMemory.disk InMemory.encoder
              (InMemory.warehouse InMemory.never InMemory.never)
              InMemory.images_leases_builds)
    as (_ & _ & Hload & Hexport & _).
  split.
  - rewrite Hload; reflexivity.
  - rewrite Hexport; reflexivity.
Defined.

(** C1, as stated, does not hold: for a document with leases and insights
    the loader writes insights before leases, and the exporter leases
    before insights. *)
Lemma sinks_order_differs :
  outcome (@LoadMetricsData InMemory.shapes
             (InMemory.warehouse InMemory.never InMemory.never)
             InMemory.leases_and_insights InMemory.no_tables) = None
  /\ outcome (@exportMetricsData InMemory.shapes InMemory.disk InMemory.encoder
                InMemory.leases_and_insights "out" ∅) = None
  /\ put_tables
       (calls (@LoadMetricsData InMemory.shapes
                 (InMemory.warehouse InMemory.never InMemory.never)
                 InMemory.leases_and_insights InMemory.no_tables))
     = ["test_platform_insights"; "leases"]
  /\ created_files
       (calls (@exportMetricsData InMemory.shapes InMemory.disk InMemory.encoder
                 InMemory.leases_and_insights "out" ∅))
     = ["out/leases.json"; "out/test_platform_insights.json"]
  /\ map (fun table => "out/" +:+ table +:+ ".json")
         (put_tables
            (calls (@LoadMetricsData InMemory.shapes
                      (InMemory.warehouse InMemory.never InMemory.never)
                      InMemory.leases_and_insights InMemory.no_tables)))
     <> created_files
          (calls (@exportMetricsData InMemory.shapes InMemory.disk InMemory.encoder
                    InMemory.leases_and_insights "out" ∅)).
Proof.
  repeat split; try reflexivity.
  vm_compute. discriminate.
Qed.

(** * Part III: further properties of the code *)

(** ** Every run of the loader *)

Section LoaderRuns.
Context `{Shapes} `{!Warehouse}.

(** Where a pass that returned an error stopped. *)
Lemma Dispatch_abort_point data order c r err :
  Dispatch data order c r ->
  outcome r = Some err ->
  exists l1 X l2 pre c1 step e,
    order = l1 ++ X :: l2
    /\ LoadStep (destination X) (shape X) (noun X) (rows data X) c1 step
    /\ outcome step = Some e
    /\ err = ErrWrap ("failed to load " +:+ noun X +:+ ": ") e
    /\ calls r = pre ++ calls step
    /\ final r = final step
    /\ (forall call, In call pre ->
          exists Y, In Y l1 /\ call_table call = Some (destination Y))
    /\ (forall Y, In Y l1 ->
          exists c2 done,
            LoadStep (destination Y) (shape Y) (noun Y) (rows data Y) c2 done
            /\ outcome done = None).
Proof.
  induction 1 as [c | X rest c r e0 Hstep Hout | X rest c r r' Hstep Hout Hrest IH];
    intros Herr; simpl in Herr.
  - discriminate Herr.
  - injection Herr as <-.
    exists [], X, rest, [], c, r, e0. simpl.
    repeat split; try assumption; try reflexivity; intros ? [].
  - destruct (IH Herr)
      as (l1 & X' & l2 & pre & c1 & step & e & -> & Hs & Ho & -> & Hcalls & Hfin
          & Hpre & Hdone).
    exists (X :: l1), X', l2, (calls r ++ pre), c1, step, e. simpl.
    repeat split; try assumption; try reflexivity.
    + rewrite Hcalls. now rewrite app_assoc.
    + intros call Hcall. apply in_app_or in Hcall as [Hcall | Hcall].
      * exists X. split; [now left |].
        eapply LoadStep_calls_table; eassumption.
      * destruct (Hpre call Hcall) as [Y [HY Ht]].
        exists Y. split; [now right | exact Ht].
    + intros Y [<- | HY]; [now exists c, r | now apply Hdone].
Qed.

(** A category whose step makes no call is not addressed by any call of
    the pass. *)
Lemma Dispatch_untouched data order c r X :
  Dispatch data order c r ->
  (forall c1 step,
     LoadStep (destination X) (shape X) (noun X) (rows data X) c1 step ->
     calls step = []) ->
  forall call, In call (calls r) -> call_table call <> Some (destination X).
Proof.
  intros Hd Hquiet.
  induction Hd as [c | Y rest c r e0 Hstep Hout | Y rest c r r' Hstep Hout Hrest IH];
    intros call Hcall; simpl in Hcall.
  - contradiction.
  - destruct (decide (Y = X)) as [-> | Hne].
    + rewrite (Hquiet _ _ Hstep) in Hcall. contradiction.
    + rewrite (LoadStep_calls_table _ _ _ _ _ _ Hstep call Hcall).
      intros Heq. injection Heq as Heq. now apply destination_inj in Heq.
  - apply in_app_or in Hcall as [Hcall | Hcall]; [| now apply IH].
    destruct (decide (Y = X)) as [-> | Hne].
    + rewrite (Hquiet _ _ Hstep) in Hcall. contradiction.
    + rewrite (LoadStep_calls_table _ _ _ _ _ _ Hstep call Hcall).
      intros Heq. injection Heq as Heq. now apply destination_inj in Heq.
Qed.

(** A pass that returned no error has completed the step of each of its
    categories. *)
Lemma Dispatch_success_steps data order c r :
  Dispatch data order c r ->
  outcome r = None ->
  forall X, In X order ->
    exists c1 step,
      LoadStep (destination X) (shape X) (noun X) (rows data X) c1 step
      /\ outcome step = None.
Proof.
  induction 1 as [c | Y rest c r e0 Hstep Hout | Y rest c r r' Hstep Hout Hrest IH];
    intros Hnone X HX; simpl in Hnone.
  - contradiction.
  - discriminate Hnone.
  - destruct HX as [<- | HX]; [now exists c, r | now apply IH].
Qed.

Lemma in_fixed_order (X : Category) : In X fixed_order.
Proof. destruct X; simpl; tauto. Qed.

End LoaderRuns.

(** X1.  An error returned by [LoadMetricsData] always names one
    non-empty category [X] and one of the three steps: it is
    [failed to load X: ] around [failed to infer schema: ], around
    [failed to create table: ] or around [failed to insert X: ], each
    around the collaborator's own error.  When the schema could not be
    inferred no call was made for [X]; when the creation failed its call is
    the last one and the error was not an already-exists conflict; when the
    insert failed its call is the last one. *)
Theorem load_error_names_category_and_step `{Shapes} `{!Warehouse}
    (data : MetricsData) (c : Client) (err : GoError) :
  outcome (LoadMetricsData data c) = Some err ->
  exists X e,
    len (rows data X) <> 0%nat
    /\ ((bigquery_InferSchema (shape X) = Fail e
         /\ err = ErrWrap ("failed to load " +:+ noun X +:+ ": ")
                    (ErrWrap "failed to infer schema: " e)
         /\ forall call, In call (calls (LoadMetricsData data c)) ->
              call_table call <> Some (destination X))
        \/ (isAlreadyExistsError (Some e) = false
            /\ err = ErrWrap ("failed to load " +:+ noun X +:+ ": ")
                       (ErrWrap "failed to create table: " e)
            /\ exists pre,
                 calls (LoadMetricsData data c)
                 = pre ++ [TableCreate (destination X) (Some e)])
        \/ (err = ErrWrap ("failed to load " +:+ noun X +:+ ": ")
                    (ErrWrap ("failed to insert " +:+ noun X +:+ ": ") e)
            /\ exists pre resp,
                 calls (LoadMetricsData data c)
                 = pre ++ [TableCreate (destination X) resp;
                           InserterPut (destination X) (rows data X) (Some e)])).
Proof.
  intros Herr.
  destruct (Dispatch_abort_point _ _ _ _ _ (LoadMetricsData_Dispatch data c) Herr)
    as (l1 & X & l2 & pre & c1 & step & e & Hcut & Hstep & Hout & -> & Hcalls & _
        & Hpre & _).
  destruct Hstep as [| e' Hlen Hs | schema c' e' Hlen Hs Hc Hno
                     | schema c' resp c'' e' Hlen Hs Hc Hok Hp |];
    simpl in Hout; try discriminate Hout; injection Hout as <-;
    exists X, e'; (split; [exact Hlen |]).
  - left. split; [exact Hs |]. split; [reflexivity |].
    intros call Hcall. rewrite Hcalls in Hcall. simpl in Hcall.
    rewrite app_nil_r in Hcall.
    eapply calls_before_cut; [exact Hcut | exact Hpre | lia | exact Hcall].
  - right. left. split; [exact Hno |]. split; [reflexivity |].
    exists pre. exact Hcalls.
  - right. right. split; [reflexivity |]. exists pre, resp. exact Hcalls.
Qed.

Lemma load_error_names_category_and_step_witness :
  exists X e,
    len (rows InMemory.images_leases_builds X) <> 0%nat
    /\ ((@bigquery_InferSchema _ Scenarios.leases_denied (shape X) = Fail e
         /\ ErrWrap "failed to load leases: "
              (ErrWrap "failed to create table: " (ErrGoogleAPI 403 "Access Denied"))
            = ErrWrap ("failed to load " +:+ noun X +:+ ": ")
                (ErrWrap "failed to infer schema: " e)
         /\ forall call,
              In call
                (calls (@LoadMetricsData _ Scenarios.leases_denied
                          InMemory.images_leases_builds InMemory.no_tables)) ->
              call_table call <> Some (destination X))
        \/ (isAlreadyExistsError (Some e) = false
            /\ ErrWrap "failed to load leases: "
                 (ErrWrap "failed to create table: " (ErrGoogleAPI 403 "Access Denied"))
               = ErrWrap ("failed to load " +:+ noun X +:+ ": ")
                   (ErrWrap "failed to create table: " e)
            /\ exists pre,
                 calls (@LoadMetricsData _ Scenarios.leases_denied
                          InMemory.images_leases_builds InMemory.no_tables)
                 = pre ++ [TableCreate (destination X) (Some e)])
        \/ (ErrWrap "failed to load leases: "
              (ErrWrap "failed to create table: " (ErrGoogleAPI 403 "Access Denied"))
            = ErrWrap ("failed to load " +:+ noun X +:+ ": ")
                (ErrWrap ("failed to insert " +:+ noun X +:+ ": ") e)
            /\ exists pre resp,
                 calls (@LoadMetricsData _ Scenarios.leases_denied
                          InMemory.images_leases_builds InMemory.no_tables)
                 = pre ++ [TableCreate (destination X) resp;
                           InserterPut (destination X)
                             (rows InMemory.images_leases_builds X) (Some e)])).
Proof.
  apply (@load_error_names_category_and_step _ Scenarios.leases_denied
           InMemory.images_leases_builds InMemory.no_tables).
  reflexivity.
Defined.

Section LoaderNever.
Context `{Shapes} `{!Warehouse}.

Lemma LoadStep_no_schema table sh nn rws c step e :
  LoadStep table sh nn rws c step ->
  bigquery_InferSchema sh = Fail e ->
  calls step = [] /\ (len rws <> 0%nat -> outcome step <> None).
Proof.
  intros Hstep Hs. destruct Hstep; simpl; try congruence.
  - split; [reflexivity | contradiction].
  - split; [reflexivity | discriminate].
Qed.

Lemma LoadStep_empty table sh nn rws c step :
  LoadStep table sh nn rws c step ->
  len rws = 0%nat ->
  calls step = [].
Proof. intros Hstep Hlen. destruct Hstep; simpl; congruence. Qed.

(** X2.  When no schema can be inferred for the struct of a non-empty
    category [X], [LoadMetricsData] returns an error and never addresses
    the table of [X] or of any category after [X] in the fixed order:
    nothing is created and nothing is inserted there. *)
Theorem schema_failure_blocks_category (data : MetricsData) (c : Client)
    (X : Category) (e : GoError) :
  bigquery_InferSchema (shape X) = Fail e ->
  len (rows data X) <> 0%nat ->
  outcome (LoadMetricsData data c) <> None
  /\ forall Y call,
       (position X <= position Y)%nat ->
       In call (calls (LoadMetricsData data c)) ->
       call_table call <> Some (destination Y).
Proof.
  intros Hs Hlen.
  pose proof (LoadMetricsData_Dispatch data c) as Hd.
  destruct (outcome (LoadMetricsData data c)) as [err |] eqn:Hout.
  2: { exfalso.
       destruct (Dispatch_success_steps _ _ _ _ Hd Hout X (in_fixed_order X))
         as (c1 & step & Hstep & Hnone).
       now apply (LoadStep_no_schema _ _ _ _ _ _ _ Hstep Hs). }
  split; [discriminate |].
  destruct (Dispatch_abort_point _ _ _ _ _ Hd Hout)
    as (l1 & X' & l2 & pre & c1 & step & e' & Hcut & Hstep & Hfail & _ & Hcalls & _
        & Hpre & Hdone).
  assert (position X' <= position X)%nat as Hle.
  { destruct (Nat.le_gt_cases (position X') (position X)) as [Hle | Hgt];
      [exact Hle | exfalso].
    apply (fixed_order_split _ _ _ Hcut) in Hgt.
    destruct (Hdone X Hgt) as (c2 & done & Hstep2 & Hnone).
    now apply (LoadStep_no_schema _ _ _ _ _ _ _ Hstep2 Hs). }
  intros Y call HY Hcall. rewrite Hcalls in Hcall.
  apply in_app_or in Hcall as [Hcall | Hcall].
  - eapply calls_before_cut; [exact Hcut | exact Hpre | lia | exact Hcall].
  - rewrite (LoadStep_calls_table _ _ _ _ _ _ Hstep call Hcall).
    intros Heq. injection Heq as Heq. apply destination_inj in Heq. subst Y.
    assert (X' = X) as -> by (destruct X, X'; simpl in *; first [reflexivity | lia]).
    destruct (LoadStep_no_schema _ _ _ _ _ _ _ Hstep Hs) as [Hquiet _].
    rewrite Hquiet in Hcall. contradiction.
Qed.

(** X3.  An empty category is never addressed by [LoadMetricsData],
    whatever the other categories hold and however the pass ends: no
    [Create] and no [Put] names its table. *)
Theorem empty_category_never_addressed (data : MetricsData) (c : Client)
    (X : Category) :
  len (rows data X) = 0%nat ->
  forall call, In call (calls (LoadMetricsData data c)) ->
    call_table call <> Some (destination X).
Proof.
  intros Hlen.
  apply (Dispatch_untouched data fixed_order c _ X (LoadMetricsData_Dispatch data c)).
  intros c1 step Hstep. now apply (LoadStep_empty _ _ _ _ _ _ Hstep).
Qed.

(** Every [Put] of a pass comes right after the [Create] of its table. *)
Lemma Dispatch_put_after_create data order c r :
  Dispatch data order c r ->
  forall table rws resp,
    In (InserterPut table rws resp) (calls r) ->
    exists X resp' l1 l2,
      In X order
      /\ table = destination X
      /\ rws = rows data X
      /\ len rws <> 0%nat
      /\ tolerated resp'
      /\ calls r = l1 ++ TableCreate table resp' :: InserterPut table rws resp :: l2.
Proof.
  assert (forall X c1 step table rws resp,
            LoadStep (destination X) (shape X) (noun X) (rows data X) c1 step ->
            In (InserterPut table rws resp) (calls step) ->
            exists resp',
              table = destination X /\ rws = rows data X /\ len rws <> 0%nat
              /\ tolerated resp'
              /\ calls step = [TableCreate table resp'; InserterPut table rws resp])
    as Hblock.
  { intros X c1 step table rws resp Hstep Hin.
    destruct Hstep as [| | | schema c' resp' c'' e' Hlen Hs Hc Hok Hp
                       | schema c' resp' c'' Hlen Hs Hc Hok Hp];
      simpl in Hin;
      repeat (destruct Hin as [Hin | Hin]; try discriminate Hin);
      try contradiction;
      injection Hin as <- <- <-; exists resp'; repeat split; assumption. }
  induction 1 as [c | X rest c r e0 Hstep Hout | X rest c r r' Hstep Hout Hrest IH];
    intros table rws resp Hin; simpl in Hin.
  - contradiction.
  - destruct (Hblock _ _ _ _ _ _ Hstep Hin) as (resp' & -> & -> & Hlen & Hok & Hcalls).
    exists X, resp', [], []. simpl. repeat split; try assumption; try tauto.
  - apply in_app_or in Hin as [Hin | Hin].
    + destruct (Hblock _ _ _ _ _ _ Hstep Hin) as (resp' & -> & -> & Hlen & Hok & Hcalls).
      exists X, resp', [], (calls r'). simpl.
      repeat split; try assumption; try tauto. now rewrite Hcalls.
    + destruct (IH _ _ _ Hin) as (X' & resp' & l1 & l2 & HX & -> & -> & Hlen & Hok & Hcalls).
      exists X', resp', (calls r ++ l1), l2. simpl.
      repeat split; try assumption; try tauto.
      rewrite Hcalls. now rewrite app_assoc.
Qed.

(** X4.  [LoadMetricsData] never inserts into a table it has not just
    ensured: every [Put] in its trace comes immediately after the [Create]
    of the same table, and that [Create] succeeded or reported that the
    table exists.  The rows handed over are the whole, non-empty sequence of
    the category the table belongs to. *)
Theorem put_follows_tolerated_create (data : MetricsData) (c : Client)
    (table : string) (rws : TableData) (resp : option GoError) :
  In (InserterPut table rws resp) (calls (LoadMetricsData data c)) ->
  exists X resp' l1 l2,
    table = destination X
    /\ rws = rows data X
    /\ len rws <> 0%nat
    /\ tolerated resp'
    /\ calls (LoadMetricsData data c)
       = l1 ++ TableCreate table resp' :: InserterPut table rws resp :: l2.
Proof.
  intros Hin.
  destruct (Dispatch_put_after_create _ _ _ _ (LoadMetricsData_Dispatch data c) _ _ _ Hin)
    as (X & resp' & l1 & l2 & _ & Hrest).
  now exists X, resp', l1, l2.
Qed.

(** The tables created and the tables inserted into, each in call order,
    follow the order of the pass. *)
Lemma Dispatch_tables_in_order data order c r :
  Dispatch data order c r ->
  sublist (created_tables (calls r)) (map destination order)
  /\ sublist (put_tables (calls r)) (map destination order).
Proof.
  assert (forall X c1 step,
            LoadStep (destination X) (shape X) (noun X) (rows data X) c1 step ->
            (created_tables (calls step) = [] \/ created_tables (calls step) = [destination X])
            /\ (put_tables (calls step) = [] \/ put_tables (calls step) = [destination X]))
    as Hblock.
  { intros X c1 step Hstep. destruct Hstep; simpl; tauto. }
  induction 1 as [c | X rest c r e0 Hstep Hout | X rest c r r' Hstep Hout Hrest IH];
    simpl.
  - split; constructor.
  - destruct (Hblock _ _ _ Hstep) as [[-> | ->] [-> | ->]]; split;
      first [apply sublist_nil_l | apply sublist_skip, sublist_nil_l].
  - unfold created_tables, put_tables in *. rewrite !omap_app.
    destruct IH as [IHc IHp].
    destruct (Hblock _ _ _ Hstep) as [[Hc | Hc] [Hp | Hp]];
      unfold created_tables, put_tables in Hc, Hp; rewrite Hc, Hp; simpl; split;
      first [now apply sublist_cons | now apply sublist_skip].
Qed.

(** X5.  In one pass [LoadMetricsData] creates and inserts into each table
    at most once, and in the fixed order: the tables of its [Create] calls
    and the tables of its [Put] calls are each a subsequence of images,
    nodes, test_platform_insights, leases, openshift_builds, pods, events;
    and a table is inserted into only if it was created in this pass. *)
Theorem tables_once_in_fixed_order (data : MetricsData) (c : Client) :
  sublist (created_tables (calls (LoadMetricsData data c)))
          (map destination fixed_order)
  /\ sublist (put_tables (calls (LoadMetricsData data c)))
             (map destination fixed_order)
  /\ NoDup (created_tables (calls (LoadMetricsData data c)))
  /\ NoDup (put_tables (calls (LoadMetricsData data c)))
  /\ sublist (put_tables (calls (LoadMetricsData data c)))
             (created_tables (calls (LoadMetricsData data c))).
Proof.
  destruct (Dispatch_tables_in_order _ _ _ _ (LoadMetricsData_Dispatch data c))
    as [Hc Hp].
  assert (NoDup (map destination fixed_order)) as Hnd
    by (apply (bool_decide_unpack _); vm_compute; reflexivity).
  split; [exact Hc |]. split; [exact Hp |].
  split; [eapply sublist_NoDup; eassumption |].
  split; [eapply sublist_NoDup; eassumption |].
  clear Hc Hp Hnd.
  pose proof (LoadMetricsData_Dispatch data c) as Hd.
  induction Hd as [c | X rest c r e0 Hstep Hout | X rest c r r' Hstep Hout Hrest IH];
    simpl.
  - constructor.
  - destruct Hstep; simpl; repeat constructor.
  - unfold created_tables, put_tables in *. rewrite !omap_app.
    apply sublist_app; [| exact IH].
    destruct Hstep; simpl; repeat constructor.
Qed.

(** X18.  A pass of [LoadMetricsData] that returns nil has made, for each
    non-empty category in the fixed order, one [Create] followed by one
    [Put] of all its rows, and no other call. *)
Theorem successful_load_trace (data : MetricsData) (c : Client) :
  outcome (LoadMetricsData data c) = None ->
  map request (calls (LoadMetricsData data c))
  = concat
      (map (fun X => [TableCreate (destination X) None;
                      InserterPut (destination X) (rows data X) None])
           (nonempty data fixed_order)).
Proof.
  intros Hnone.
  pose proof (LoadMetricsData_Dispatch data c) as Hd.
  unfold nonempty.
  induction Hd as [c | X rest c r e0 Hstep Hout | X rest c r r' Hstep Hout Hrest IH];
    simpl in Hnone.
  - reflexivity.
  - discriminate Hnone.
  - cbn [calls List.filter]. rewrite map_app, (IH Hnone).
    destruct (LoadStep_success _ _ _ _ _ _ Hstep Hout)
      as [[Hlen ->] | [Hlen [resp ->]]].
    + rewrite Hlen. reflexivity.
    + apply Nat.eqb_neq in Hlen. rewrite Hlen. reflexivity.
Qed.

End LoaderNever.

Lemma schema_failure_blocks_category_witness :
  outcome (@LoadMetricsData _ Scenarios.no_image_schema
             InMemory.images_leases_builds InMemory.no_tables) <> None
  /\ calls (@LoadMetricsData _ Scenarios.no_image_schema
              InMemory.images_leases_builds InMemory.no_tables) = [].
Proof.
  destruct (@schema_failure_blocks_category _ Scenarios.no_image_schema
              InMemory.images_leases_builds InMemory.no_tables CImages
              (ErrOther "bigquery: unsupported type of field in struct"))
    as [Herr _].
  - reflexivity.
  - discriminate.
  - split; [exact Herr | reflexivity].
Defined.

Lemma empty_category_never_addressed_witness :
  len (rows InMemory.three_pods CImages) = 0%nat
  /\ forall call,
       In call (calls (@LoadMetricsData _ Scenarios.steady
                         InMemory.three_pods InMemory.no_tables)) ->
       call_table call <> Some "images".
Proof.
  split; [reflexivity |].
  apply (@empty_category_never_addressed _ Scenarios.steady
           InMemory.three_pods InMemory.no_tables CImages).
  reflexivity.
Defined.

Lemma put_follows_tolerated_create_witness :
  exists X resp' l1 l2,
    "pods" = destination X
    /\ PodRows (Pods InMemory.three_pods) = rows InMemory.three_pods X
    /\ len (PodRows (Pods InMemory.three_pods)) <> 0%nat
    /\ tolerated resp'
    /\ calls (@LoadMetricsData _ Scenarios.steady InMemory.three_pods
                InMemory.leases_table_exists)
       = l1 ++ TableCreate "pods" resp'
            :: InserterPut "pods" (PodRows (Pods InMemory.three_pods)) None :: l2.
Proof.
  apply (@put_follows_tolerated_create _ Scenarios.steady InMemory.three_pods
           InMemory.leases_table_exists "pods"
           (PodRows (Pods InMemory.three_pods)) None).
  vm_compute. tauto.
Defined.

Lemma successful_load_trace_witness :
  map request
    (calls (@LoadMetricsData _ Scenarios.steady InMemory.three_pods
              InMemory.leases_table_exists))
  = concat
      (map (fun X => [TableCreate (destination X) None;
                      InserterPut (destination X) (rows InMemory.three_pods X) None])
           (nonempty InMemory.three_pods fixed_order)).
Proof.
  apply (@successful_load_trace _ Scenarios.steady InMemory.three_pods
           InMemory.leases_table_exists).
  reflexivity.
Defined.

(** ** Every run of the exporter *)

Section ExporterRuns.
Context `{Shapes} `{!FileSystem} `{!JSONEncoder}.

(** X6.  Once [os.Create] has succeeded, [exportTable] replaces whatever
    the file held and goes through the items in order.  Either every item
    is marshalled and written, the file holds one line per item and the
    result is nil; or the function stops at the first item that cannot be
    marshalled or whose write fails, returns [failed to encode item: ]
    around that error and encodes no later item.  The file then holds the
    lines of the items before it, followed, for a failed write, by the
    bytes of the line that were written. *)
Theorem exportTable_writes_lines_until_failure
    (exportDir filename : string) (data : TableData) (its : list (result string)) :
  os_Create (filepath_Join exportDir filename) = None ->
  items data = Some its ->
  (exists texts,
     its = map Ok texts
     /\ forall fs,
          exportTable exportDir filename data fs
          = MkRun (<[filepath_Join exportDir filename := ndjson (map Ok texts)]> fs)
                  (OsCreate (filepath_Join exportDir filename) None
                     :: map (fun t => Encode (filepath_Join exportDir filename) (Ok t))
                          texts)
                  None)
  \/ (exists texts it rest e written,
        its = map Ok texts ++ it :: rest
        /\ (forall fs,
              exportTable exportDir filename data fs
              = MkRun (<[filepath_Join exportDir filename
                         := ndjson (map Ok texts) +:+ written]> fs)
                      (OsCreate (filepath_Join exportDir filename) None
                         :: map (fun t => Encode (filepath_Join exportDir filename) (Ok t))
                              texts
                         ++ [Encode (filepath_Join exportDir filename) it])
                      (Some (ErrWrap "failed to encode item: " e)))
        /\ ((it = Fail e /\ written = "")
            \/ exists t n,
                 it = Ok t
                 /\ file_Write (filepath_Join exportDir filename)
                      (ndjson (map Ok texts)) (t +:+ newline) = Some (n, e)
                 /\ written = substring 0 n (t +:+ newline))).
Proof. apply exportTable_cases. Qed.

End ExporterRuns.

Lemma exportTable_writes_lines_until_failure_witness :
  (exists texts,
     map (Marshal_ptr InMemory.marshal_pod) (Pods InMemory.three_pods)
     = map Ok texts
     /\ forall fs,
          @exportTable _ Scenarios.short_write InMemory.encoder "out" "pods.json"
            (PodRows (Pods InMemory.three_pods)) fs
          = MkRun (<["out/pods.json" := ndjson (map Ok texts)]> fs)
                  (OsCreate "out/pods.json" None
                     :: map (fun t => Encode "out/pods.json" (Ok t)) texts)
                  None)
  \/ (exists texts it rest e written,
        map (Marshal_ptr InMemory.marshal_pod) (Pods InMemory.three_pods)
        = map Ok texts ++ it :: rest
        /\ (forall fs,
              @exportTable _ Scenarios.short_write InMemory.encoder "out" "pods.json"
                (PodRows (Pods InMemory.three_pods)) fs
              = MkRun (<["out/pods.json" := ndjson (map Ok texts) +:+ written]> fs)
                      (OsCreate "out/pods.json" None
                         :: map (fun t => Encode "out/pods.json" (Ok t)) texts
                         ++ [Encode "out/pods.json" it])
                      (Some (ErrWrap "failed to encode item: " e)))
        /\ ((it = Fail e /\ written = "")
            \/ exists t n,
                 it = Ok t
                 /\ @file_Write Scenarios.short_write "out/pods.json"
                      (ndjson (map Ok texts)) (t +:+ newline) = Some (n, e)
                 /\ written = substring 0 n (t +:+ newline))).
Proof.
  apply (@exportTable_writes_lines_until_failure _ Scenarios.short_write
           InMemory.encoder "out" "pods.json" (PodRows (Pods InMemory.three_pods)));
    reflexivity.
Defined.

Section ExportPass.
Context `{Shapes} `{!FileSystem} `{!JSONEncoder}.
Variables (data : MetricsData) (exportDir : string).

Lemma export_pass_cons X order fs :
  export_pass data exportDir (X :: order) fs
  = if (0 <? len (rows data X))%nat
    then guard (exportTable exportDir (export_file X) (rows data X))
               ("failed to export " +:+ noun X +:+ ": ")
               (export_pass data exportDir order) fs
    else export_pass data exportDir order fs.
Proof.
  unfold export_pass. cbn [fold_right].
  now destruct (0 <? len (rows data X))%nat.
Qed.

(** A path that is the file of no non-empty category of the pass is
    neither created nor changed. *)
Lemma export_pass_frame (order : list Category) (path : string) :
  (forall Y, In Y order -> len (rows data Y) <> 0%nat ->
     filepath_Join exportDir (export_file Y) <> path) ->
  forall fs,
    final (export_pass data exportDir order fs) !! path = fs !! path
    /\ ~ In path (created_files (calls (export_pass data exportDir order fs))).
Proof.
  induction order as [|X order IH]; intros Hne fs.
  - split; [reflexivity | intros []].
  - assert (forall fs',
              final (export_pass data exportDir order fs') !! path = fs' !! path
              /\ ~ In path (created_files (calls (export_pass data exportDir order fs'))))
      as IH'.
    { apply IH. intros Y HY. apply Hne. now right. }
    rewrite export_pass_cons.
    destruct (0 <? len (rows data X))%nat eqn:Hlen; [| apply IH'].
    apply Nat.ltb_lt in Hlen.
    assert (filepath_Join exportDir (export_file X) <> path) as HX
      by (apply Hne; [now left | lia]).
    rewrite guard_run.
    pose proof (exportTable_other exportDir (export_file X) (rows data X) path fs HX)
      as Hsame.
    pose proof (exportTable_creates exportDir (export_file X) (rows data X) fs)
      as Hcreated.
    destruct (outcome (exportTable exportDir (export_file X) (rows data X) fs)).
    + cbn [final calls]. split; [exact Hsame |].
      rewrite Hcreated. simpl. tauto.
    + cbn zeta. cbn [final calls].
      destruct (IH' (final (exportTable exportDir (export_file X) (rows data X) fs)))
        as [Hfinal Hnot].
      split; [now rewrite Hfinal |].
      unfold created_files in *. rewrite omap_app, Hcreated.
      intros Hin. apply in_app_or in Hin as [Hin | Hin]; [| now apply Hnot].
      simpl in Hin. tauto.
Qed.

(** Where a pass of the export that returned an error stopped. *)
Lemma export_pass_abort_point (order : list Category) :
  forall fs err,
    outcome (export_pass data exportDir order fs) = Some err ->
    exists l1 X l2 inner,
      order = l1 ++ X :: l2
      /\ len (rows data X) <> 0%nat
      /\ outcome (export_pass data exportDir l1 fs) = None
      /\ outcome (exportTable exportDir (export_file X) (rows data X)
                    (final (export_pass data exportDir l1 fs))) = Some inner
      /\ err = ErrWrap ("failed to export " +:+ noun X +:+ ": ") inner
      /\ final (export_pass data exportDir order fs)
         = final (exportTable exportDir (export_file X) (rows data X)
                    (final (export_pass data exportDir l1 fs)))
      /\ calls (export_pass data exportDir order fs)
         = calls (export_pass data exportDir l1 fs)
           ++ calls (exportTable exportDir (export_file X) (rows data X)
                       (final (export_pass data exportDir l1 fs))).
Proof.
  induction order as [|Y order IH]; intros fs err Herr; [discriminate Herr |].
  rewrite export_pass_cons in Herr.
  destruct (0 <? len (rows data Y))%nat eqn:Hlen.
  - apply Nat.ltb_lt in Hlen. rewrite guard_run in Herr.
    destruct (outcome (exportTable exportDir (export_file Y) (rows data Y) fs))
      as [inner |] eqn:HoutY.
    + injection Herr as <-.
      exists [], Y, order, inner.
      rewrite export_pass_cons. apply Nat.ltb_lt in Hlen. rewrite Hlen.
      rewrite guard_run, HoutY. cbn [final calls outcome export_pass fold_right ret app].
      apply Nat.ltb_lt in Hlen. repeat split; try reflexivity; try assumption. lia.
    + cbn zeta in Herr. cbn [outcome] in Herr.
      destruct (IH _ _ Herr) as (l1 & X & l2 & inner & -> & HlenX & Hok & Hfail & -> & Hfin & Hcalls).
      exists (Y :: l1), X, l2, inner.
      assert (export_pass data exportDir (Y :: l1) fs
              = let r := exportTable exportDir (export_file Y) (rows data Y) fs in
                let r' := export_pass data exportDir l1 (final r) in
                MkRun (final r') (calls r ++ calls r') (outcome r')) as Hl1.
      { rewrite export_pass_cons. apply Nat.ltb_lt in Hlen. rewrite Hlen.
        rewrite guard_run, HoutY. reflexivity. }
      rewrite (export_pass_cons Y (l1 ++ X :: l2)).
      apply Nat.ltb_lt in Hlen. rewrite Hlen. rewrite guard_run, HoutY.
      rewrite Hl1. cbn zeta. cbn [final calls outcome].
      repeat split; try reflexivity; try assumption.
      rewrite Hcalls. now rewrite app_assoc.
  - destruct (IH _ _ Herr) as (l1 & X & l2 & inner & -> & HlenX & Hok & Hfail & -> & Hfin & Hcalls).
    exists (Y :: l1), X, l2, inner.
    rewrite (export_pass_cons Y (l1 ++ X :: l2)), (export_pass_cons Y l1), Hlen.
    repeat split; try reflexivity; assumption.
Qed.

Lemma export_order_split (l1 l2 : list Category) (X : Category) :
  export_order = l1 ++ X :: l2 ->
  forall Y, (In Y l1 <-> (export_position Y < export_position X)%nat)
            /\ (In Y l2 <-> (export_position X < export_position Y)%nat).
Proof.
  intros Hcut.
  assert (length l1 = export_position X) as Hlen.
  { assert (export_order !! length l1 = Some X) as Hl1.
    { rewrite Hcut. rewrite lookup_app_r by lia. now rewrite Nat.sub_diag. }
    eapply NoDup_lookup; [| exact Hl1 | destruct X; reflexivity].
    apply (bool_decide_unpack _). vm_compute. reflexivity. }
  assert (l1 = take (export_position X) export_order) as Htake.
  { rewrite Hcut, <- Hlen. now rewrite take_app_length. }
  assert (l2 = drop (S (export_position X)) export_order) as Hdrop.
  { rewrite Hcut, <- Hlen.
    replace (l1 ++ X :: l2) with ((l1 ++ [X]) ++ l2) by now rewrite <- app_assoc.
    rewrite drop_app_length'; [reflexivity |].
    rewrite length_app. simpl. lia. }
  rewrite Htake, Hdrop. clear.
  intros Y. destruct X, Y; simpl; intuition (discriminate || lia).
Qed.

End ExportPass.

Section ExporterTheorems.
Context `{Shapes} `{!FileSystem} `{!JSONEncoder}.

Lemma exportMetricsData_pass data exportDir fs :
  exportMetricsData data exportDir fs
  = guard (mkdirAll exportDir) "failed to create export directory: "
          (export_pass data exportDir export_order) fs.
Proof. reflexivity. Qed.

Lemma created_files_app (cs cs' : list Call) :
  created_files (cs ++ cs') = created_files cs ++ created_files cs'.
Proof. unfold created_files. apply omap_app. Qed.

Lemma items_of_rows (data : MetricsData) (X : Category) :
  exists its, items (rows data X) = Some its /\ length its = len (rows data X).
Proof. destruct X; simpl; eexists; (split; [reflexivity | apply length_map]). Qed.

(** X7.  [exportMetricsData] creates and changes no file other than the
    files of the non-empty categories: a path that is not one of those is
    never passed to [os.Create] and holds afterwards what it held before,
    however the export ends.  In particular no file is made for an empty
    category. *)
Theorem export_leaves_other_files (data : MetricsData) (exportDir path : string)
    (fs : gmap string string) :
  (forall Y, len (rows data Y) <> 0%nat ->
     filepath_Join exportDir (export_file Y) <> path) ->
  final (exportMetricsData data exportDir fs) !! path = fs !! path
  /\ ~ In path (created_files (calls (exportMetricsData data exportDir fs))).
Proof.
  intros Hne. rewrite exportMetricsData_pass, guard_run.
  unfold mkdirAll. cbn [outcome final calls].
  destruct (os_MkdirAll exportDir).
  - cbn. split; [reflexivity | tauto].
  - cbn zeta. cbn [final calls].
    destruct (export_pass_frame data exportDir export_order path
                (fun Y _ => Hne Y) fs) as [Hfinal Hnot].
    split; [exact Hfinal |]. exact Hnot.
Qed.

(** X8.  When [exportMetricsData] returns an error, either the directory
    could not be made and nothing else happened, or the error is
    [failed to export X: ] for one non-empty category [X].  In that case
    the file of [X] could not be created and is as before; or an item of
    [X] could not be marshalled and the file holds the lines of the items
    before it; or the write of an item failed and the file holds the lines
    of the items before it and the bytes of that line that were written.
    The files of the categories after [X] in the order of the export are
    neither created nor changed, and every non-empty category before [X]
    has its complete file.  The seven files are taken to have paths that
    differ. *)
Theorem export_failure_stops_export (data : MetricsData) (exportDir : string)
    (fs : gmap string string) (err : GoError) :
  NoDup (map (fun X => filepath_Join exportDir (export_file X)) export_order) ->
  outcome (exportMetricsData data exportDir fs) = Some err ->
  (exists e,
     os_MkdirAll exportDir = Some e
     /\ err = ErrWrap "failed to create export directory: " e
     /\ exportMetricsData data exportDir fs
        = MkRun fs [MkdirAll exportDir (Some e)] (Some err))
  \/ exists X inner,
       len (rows data X) <> 0%nat
       /\ err = ErrWrap ("failed to export " +:+ noun X +:+ ": ") inner
       /\ ((exists e,
              os_Create (filepath_Join exportDir (export_file X)) = Some e
              /\ inner = ErrWrap ("failed to create " +:+ export_file X +:+ ": ") e
              /\ final (exportMetricsData data exportDir fs)
                   !! filepath_Join exportDir (export_file X)
                 = fs !! filepath_Join exportDir (export_file X))
           \/ (exists texts e rest,
                 os_Create (filepath_Join exportDir (export_file X)) = None
                 /\ items (rows data X) = Some (map Ok texts ++ Fail e :: rest)
                 /\ inner = ErrWrap "failed to encode item: " e
                 /\ final (exportMetricsData data exportDir fs)
                      !! filepath_Join exportDir (export_file X)
                    = Some (ndjson (map Ok texts)))
           \/ (exists texts t rest n e,
                 os_Create (filepath_Join exportDir (export_file X)) = None
                 /\ items (rows data X) = Some (map Ok texts ++ Ok t :: rest)
                 /\ file_Write (filepath_Join exportDir (export_file X))
                      (ndjson (map Ok texts)) (t +:+ newline) = Some (n, e)
                 /\ inner = ErrWrap "failed to encode item: " e
                 /\ final (exportMetricsData data exportDir fs)
                      !! filepath_Join exportDir (export_file X)
                    = Some (ndjson (map Ok texts)
                            +:+ substring 0 n (t +:+ newline))))
       /\ (forall Y, (export_position X < export_position Y)%nat ->
             final (exportMetricsData data exportDir fs)
               !! filepath_Join exportDir (export_file Y)
             = fs !! filepath_Join exportDir (export_file Y)
             /\ ~ In (filepath_Join exportDir (export_file Y))
                     (created_files (calls (exportMetricsData data exportDir fs))))
       /\ (forall Y, (export_position Y < export_position X)%nat ->
             len (rows data Y) <> 0%nat ->
             exists texts,
               items (rows data Y) = Some (map Ok texts)
               /\ final (exportMetricsData data exportDir fs)
                    !! filepath_Join exportDir (export_file Y)
                  = Some (ndjson (map Ok texts))).
Proof.
  intros Hdistinct Herr.
  rewrite exportMetricsData_pass in *. rewrite guard_run in *.
  unfold mkdirAll in *. cbn [outcome final calls] in *.
  destruct (os_MkdirAll exportDir) as [e |].
  { left. exists e. injection Herr as <-. repeat split. }
  right. cbn zeta in *. cbn [outcome final calls] in *.
  set (path := fun Y => filepath_Join exportDir (export_file Y)).
  assert (forall Y Z, path Y = path Z -> Y = Z) as Hpath.
  { intros Y Z Heq.
    apply (NoDup_paths_inj exportDir export_order Y Z Hdistinct);
      [apply In_export_order | apply In_export_order | exact Heq]. }
  destruct (export_pass_abort_point data exportDir export_order fs err Herr)
    as (l1 & X & l2 & inner & Hcut & Hlen & Hok & Hfail & -> & Hfin & Hcalls).
  set (fs1 := final (export_pass data exportDir l1 fs)) in *.
  assert (forall Y, In Y l1 -> path Y <> path X) as Hbefore.
  { intros Y HY Heq. apply Hpath in Heq. subst Y.
    apply (export_order_split _ _ _ Hcut) in HY. lia. }
  assert (fs1 !! path X = fs !! path X) as Hkept.
  { apply (export_pass_frame data exportDir l1 (path X)).
    intros Y HY _. now apply Hbefore. }
  exists X, inner. split; [exact Hlen |]. split; [reflexivity |].
  rewrite Hfin.
  split; [| split].
  - pose proof (exportTable_run exportDir (export_file X) (rows data X)) as Hrun.
    cbn zeta in Hrun. fold (path X) in Hrun |- *.
    destruct (os_Create (path X)) as [e |] eqn:Hcreate.
    + left. exists e. rewrite Hrun in Hfail |- *. injection Hfail as <-.
      repeat split. exact Hkept.
    + right. clear Hrun. destruct (items_of_rows data X) as (its & Hits & _).
      destruct (exportTable_cases exportDir (export_file X) (rows data X) its
                  Hcreate Hits)
        as [(texts & -> & Hrun)
           | (texts & it & rest & e & written & -> & Hrun & Hwhy)];
        fold (path X) in Hrun; rewrite Hrun in Hfail |- *.
      * discriminate Hfail.
      * injection Hfail as <-. cbn [final]. rewrite lookup_insert_eq.
        destruct Hwhy as [[-> ->] | (t & n & -> & Hwrite & ->)].
        -- left. exists texts, e, rest. rewrite append_empty_r.
           repeat split; assumption.
        -- right. exists texts, t, rest, n, e. repeat split; assumption.
  - intros Y HY. apply (export_order_split _ _ _ Hcut) in HY.
    assert (path X <> path Y) as HXY.
    { intros Heq. apply Hpath in Heq. subst Y.
      assert (NoDup export_order) as Hnd
        by (apply (bool_decide_unpack _); vm_compute; reflexivity).
      rewrite Hcut in Hnd. apply NoDup_app in Hnd as (_ & _ & Hnd).
      apply NoDup_cons in Hnd as [Hnot _]. apply Hnot.
      now apply list_elem_of_In. }
    destruct (export_pass_frame data exportDir l1 (path Y)) with (fs := fs)
      as [Hsame Hnot].
    { intros Z HZ _ Heq. apply Hpath in Heq. subst Z.
      assert (NoDup export_order) as Hnd
        by (apply (bool_decide_unpack _); vm_compute; reflexivity).
      rewrite Hcut in Hnd. apply NoDup_app in Hnd as (_ & Hdisj & _).
      apply (Hdisj Y); [now apply list_elem_of_In |].
      apply list_elem_of_In. now right. }
    split.
    + rewrite exportTable_other by exact HXY. exact Hsame.
    + rewrite Hcalls, !created_files_app.
      intros Hin. apply in_app_or in Hin as [Hin | Hin]; [contradiction |].
      apply in_app_or in Hin as [Hin | Hin]; [now apply Hnot |].
      rewrite exportTable_creates in Hin.
      simpl in Hin. destruct Hin as [Hin | []]. now apply HXY.
  - intros Y HY HlenY. apply (export_order_split _ _ _ Hcut) in HY.
    destruct (pass_written data exportDir l1) with (fs := fs) (X := Y)
      as (texts & Hits & Hfile); try assumption.
    { pose proof Hdistinct as Hnd.
      rewrite Hcut, map_app in Hnd. now apply NoDup_app in Hnd as (Hnd & _ & _). }
    exists texts. split; [exact Hits |].
    rewrite exportTable_other; [exact Hfile |].
    intros Heq. symmetry in Heq. now apply (Hbefore Y HY).
Qed.

(** X9.  When [exportMetricsData] returns nil, the file of every non-empty
    category, whatever it held before, consists of one line per record of
    the category, in order, each line being the encoder's text for the
    record.  The seven files are taken to have paths that differ. *)
Theorem export_success_writes_every_category (data : MetricsData)
    (exportDir : string) (fs : gmap string string) (X : Category) :
  NoDup (map (fun X => filepath_Join exportDir (export_file X)) export_order) ->
  outcome (exportMetricsData data exportDir fs) = None ->
  len (rows data X) <> 0%nat ->
  exists texts,
    items (rows data X) = Some (map Ok texts)
    /\ length texts = len (rows data X)
    /\ final (exportMetricsData data exportDir fs)
         !! filepath_Join exportDir (export_file X)
       = Some (ndjson (map Ok texts)).
Proof.
  intros Hdistinct Hout Hlen.
  rewrite exportMetricsData_pass in *. rewrite guard_run in *.
  unfold mkdirAll in *. cbn [outcome final calls] in *.
  destruct (os_MkdirAll exportDir); [discriminate Hout |].
  cbn zeta in *. cbn [outcome final] in *.
  destruct (pass_written data exportDir export_order Hdistinct fs X)
    as (texts & Hits & Hfile); try assumption.
  { apply In_export_order. }
  exists texts. split; [exact Hits |]. split; [| exact Hfile].
  destruct (items_of_rows data X) as (its & Hits' & Hlength).
  rewrite Hits in Hits'. injection Hits' as <-.
  now rewrite length_map in Hlength.
Qed.

End ExporterTheorems.

Lemma export_leaves_other_files_witness :
  final (@exportMetricsData _ InMemory.disk InMemory.encoder InMemory.three_pods
           "out" {[ "out/images.json" := "kept" ]}) !! "out/images.json"
  = Some "kept".
Proof.
  destruct (@export_leaves_other_files _ InMemory.disk InMemory.encoder
              InMemory.three_pods "out" "out/images.json"
              {[ "out/images.json" := "kept" ]}) as [Hsame _].
  - intros Y Hlen Heq.
    destruct Y; first [apply Hlen; reflexivity | vm_compute in Heq; discriminate Heq].
  - rewrite Hsame. reflexivity.
Defined.

Lemma export_failure_stops_export_witness :
  final (@exportMetricsData _ Scenarios.no_nodes_file InMemory.encoder
           Scenarios.images_nodes_pods "out" ∅) !! "out/pods.json" = None.
Proof.
  destruct (@export_failure_stops_export _ Scenarios.no_nodes_file InMemory.encoder
              Scenarios.images_nodes_pods "out" ∅
              (ErrWrap "failed to export nodes: "
                 (ErrWrap "failed to create nodes.json: "
                    (ErrOther "permission denied"))))
    as [(e & Hmkdir & _) | (X & inner & _ & Herr & _ & Hlater & _)].
  - apply (bool_decide_unpack _). vm_compute. reflexivity.
  - reflexivity.
  - discriminate Hmkdir.
  - assert (X = CNodes) as ->
      by (destruct X; first [reflexivity | vm_compute in Herr; discriminate Herr]).
    destruct (Hlater CPods) as [Hsame _]; [simpl; lia |].
    exact Hsame.
Defined.

Lemma export_success_writes_every_category_witness :
  exists texts,
    @items _ InMemory.encoder (rows InMemory.three_pods CPods) = Some (map Ok texts)
    /\ length texts = len (rows InMemory.three_pods CPods)
    /\ final (@exportMetricsData _ InMemory.disk InMemory.encoder
                InMemory.three_pods "out" ∅) !! "out/pods.json"
       = Some (ndjson (map Ok texts)).
Proof.
  apply (@export_success_writes_every_category _ InMemory.disk InMemory.encoder
           InMemory.three_pods "out" ∅ CPods).
  - apply (bool_decide_unpack _). vm_compute. reflexivity.
  - reflexivity.
  - discriminate.
Defined.

(** ** The entry points *)

(** X10.  [LoadFromGCS] and [ExportMetricsFromGCS] read the document the
    same way.  Either the storage client, the object reader and the decoder
    all succeed, and each function is its sink run on the decoded document;
    or the first step that fails decides the error, the same for both
    functions, and neither makes any call nor changes its state: no table
    is created, and not even the export directory is made. *)
Theorem acquisition_failure_touches_nothing `{Shapes} `{!Source} `{!Warehouse}
    `{!FileSystem} `{!JSONEncoder}
    (bucket object exportDir : string) :
  (exists reader data,
     storage_NewClient = None
     /\ Object_NewReader bucket object = Ok reader
     /\ json_Decode reader = Ok data
     /\ (forall c, LoadFromGCS bucket object c = LoadMetricsData data c)
     /\ (forall fs, ExportMetricsFromGCS bucket object exportDir fs
                    = exportMetricsData data exportDir fs))
  \/ (exists err,
        ((exists e, storage_NewClient = Some e
                    /\ err = ErrWrap "failed to create GCS client: " e)
         \/ (exists e, storage_NewClient = None
                       /\ Object_NewReader bucket object = Fail e
                       /\ err = ErrWrap "failed to open GCS object: " e)
         \/ (exists reader e, storage_NewClient = None
                              /\ Object_NewReader bucket object = Ok reader
                              /\ json_Decode reader = Fail e
                              /\ err = ErrWrap "failed to decode JSON from GCS: " e))
        /\ (forall c, LoadFromGCS bucket object c = MkRun c [] (Some err))
        /\ (forall fs, ExportMetricsFromGCS bucket object exportDir fs
                       = MkRun fs [] (Some err))).
Proof.
  unfold LoadFromGCS, ExportMetricsFromGCS.
  destruct storage_NewClient as [e |].
  { right. exists (ErrWrap "failed to create GCS client: " e).
    split; [left; now exists e | split; reflexivity]. }
  destruct (Object_NewReader bucket object) as [reader | e].
  2: { right. exists (ErrWrap "failed to open GCS object: " e).
       split; [right; left; now exists e | split; reflexivity]. }
  destruct (json_Decode reader) as [data | e] eqn:Hdecode.
  - left. exists reader, data. repeat split; assumption.
  - right. exists (ErrWrap "failed to decode JSON from GCS: " e).
    split; [right; right; now exists reader, e | split; reflexivity].
Qed.

Section CloudFunctionFacts.
Context `{Shapes} `{!Warehouse} `{!BigQueryService} `{!Source}.

(** X11.  The cloud function processes nothing but metrics files.  For a
    name that does not end with [ci-operator-metrics.json] it returns the
    unexpected-file error without opening a client, reading the object or
    making a call.  When it returns nil, the name ended with that suffix,
    the client for project [openshift-gce-devel] and dataset
    [ci_operator_metrics] was opened, the object was read and decoded, and
    the calls made are those of a [LoadMetricsData] of the decoded document
    that returned nil. *)
Theorem cloud_function_admission (e : CloudFunction.Event) :
  (IsMetricsFile (CloudFunction.Name e) = false ->
   CloudFunction.LoadMetricsFromGCS e
   = MkRun None []
       (Some (ErrOther ("unexpected file received: " +:+ CloudFunction.Name e
                        +:+ " (expected ci-operator-metrics.json)"))))
  /\ (outcome (CloudFunction.LoadMetricsFromGCS e) = None ->
      exists p c reader data,
        CloudFunction.Name e = p +:+ "ci-operator-metrics.json"
        /\ bigquery_NewClient "openshift-gce-devel" "ci_operator_metrics" = Ok c
        /\ Object_NewReader (CloudFunction.Bucket e) (CloudFunction.Name e) = Ok reader
        /\ json_Decode reader = Ok data
        /\ outcome (LoadMetricsData data c) = None
        /\ CloudFunction.LoadMetricsFromGCS e
           = MkRun (Some (final (LoadMetricsData data c)))
                   (calls (LoadMetricsData data c)) None).
Proof.
  unfold CloudFunction.LoadMetricsFromGCS. split.
  - intros ->. reflexivity.
  - destruct (IsMetricsFile (CloudFunction.Name e)) eqn:Hadmit; simpl;
      [| discriminate].
    apply strings_HasSuffix_iff in Hadmit as [p Hp].
    change (bigquery_NewClient CloudFunction.ProjectName CloudFunction.DatasetName)
      with (bigquery_NewClient "openshift-gce-devel" "ci_operator_metrics").
    destruct (bigquery_NewClient "openshift-gce-devel" "ci_operator_metrics")
      as [c | err]; simpl; [| discriminate].
    unfold LoadFromGCS.
    destruct storage_NewClient; [discriminate |].
    destruct (Object_NewReader (CloudFunction.Bucket e) (CloudFunction.Name e))
      as [reader | err]; [| discriminate].
    destruct (json_Decode reader) as [data | err] eqn:Hdecode; [| discriminate].
    destruct (outcome (LoadMetricsData data c)) eqn:Hout; [discriminate |].
    intros _. exists p, c, reader, data.
    repeat split; assumption.
Qed.

End CloudFunctionFacts.

Lemma cloud_function_admission_witness :
  @CloudFunction.LoadMetricsFromGCS _ Scenarios.steady
    (Scenarios.service Scenarios.steady InMemory.no_tables) Scenarios.store
    {| CloudFunction.Bucket := "ci-logs"; CloudFunction.Name := "run/build-log.txt" |}
  = MkRun None []
      (Some (ErrOther ("unexpected file received: " +:+ "run/build-log.txt"
                       +:+ " (expected ci-operator-metrics.json)")))
  /\ exists p c reader data,
       "run/ci-operator-metrics.json" = p +:+ "ci-operator-metrics.json"
       /\ @bigquery_NewClient _ _ (Scenarios.service Scenarios.steady InMemory.no_tables)
            "openshift-gce-devel" "ci_operator_metrics" = Ok c
       /\ @Object_NewReader _ Scenarios.store "ci-logs" "run/ci-operator-metrics.json"
          = Ok reader
       /\ @json_Decode _ Scenarios.store reader = Ok data
       /\ outcome (@LoadMetricsData _ Scenarios.steady data c) = None
       /\ @CloudFunction.LoadMetricsFromGCS _ Scenarios.steady
            (Scenarios.service Scenarios.steady InMemory.no_tables) Scenarios.store
            {| CloudFunction.Bucket := "ci-logs";
               CloudFunction.Name := "run/ci-operator-metrics.json" |}
          = MkRun (Some (final (@LoadMetricsData _ Scenarios.steady data c)))
                  (calls (@LoadMetricsData _ Scenarios.steady data c)) None.
Proof.
  split.
  - apply (@cloud_function_admission _ Scenarios.steady
             (Scenarios.service Scenarios.steady InMemory.no_tables) Scenarios.store
             {| CloudFunction.Bucket := "ci-logs";
                CloudFunction.Name := "run/build-log.txt" |}).
    reflexivity.
  - apply (@cloud_function_admission _ Scenarios.steady
             (Scenarios.service Scenarios.steady InMemory.no_tables) Scenarios.store
             {| CloudFunction.Bucket := "ci-logs";
                CloudFunction.Name := "run/ci-operator-metrics.json" |}).
    reflexivity.
Defined.

Section MainFacts.
Context `{Shapes} `{!Warehouse} `{!BigQueryService} `{!Source}
  `{!FileSystem} `{!JSONEncoder} `{!URLParser}.

(** What the flags are like once [validate] has let them pass. *)
Lemma validate_passed (opts : Main.options) :
  Main.validate opts = None ->
  Main.gcsPath opts <> ""
  /\ (Main.exportDir opts <> ""
      \/ (Main.projectID opts <> "" /\ Main.datasetID opts <> "")).
Proof.
  unfold Main.validate.
  destruct (String.eqb_spec (Main.gcsPath opts) "") as [Hg | Hg]; [discriminate |].
  destruct (String.eqb_spec (Main.exportDir opts) "") as [He | He]; [| tauto].
  destruct (String.eqb_spec (Main.projectID opts) "") as [Hp | Hp]; [discriminate |].
  destruct (String.eqb_spec (Main.datasetID opts) "") as [Hd | Hd]; [discriminate |].
  tauto.
Qed.

(** X12.  [validate] accepts the flags exactly when [--gcs-path] is given
    and either [--export] is given or both [--google-project-id] and
    [--bigquery-dataset] are: in export mode the project and the dataset
    are not asked for. *)
Theorem validate_accepts (opts : Main.options) :
  Main.validate opts = None
  <-> Main.gcsPath opts <> ""
      /\ (Main.exportDir opts <> ""
          \/ (Main.projectID opts <> "" /\ Main.datasetID opts <> "")).
Proof.
  split; [apply validate_passed |].
  intros [Hg Hmode]. unfold Main.validate.
  destruct (String.eqb_spec (Main.gcsPath opts) "") as [Hg' | _]; [contradiction |].
  destruct (String.eqb_spec (Main.exportDir opts) "") as [He | He]; [| reflexivity].
  destruct Hmode as [Hdir | [Hp Hd]]; [contradiction |].
  destruct (String.eqb_spec (Main.projectID opts) "") as [Hp' | _]; [contradiction |].
  destruct (String.eqb_spec (Main.datasetID opts) "") as [Hd' | _]; [contradiction |].
  reflexivity.
Qed.

Lemma TrimPrefix_slash (s o : string) :
  strings_TrimPrefix s "/" = o ->
  s = "/" +:+ o \/ (s = o /\ strings_HasPrefix s "/" = false).
Proof.
  unfold strings_TrimPrefix. destruct (strings_HasPrefix s "/") eqn:Hp.
  - intros <-. left. unfold strings_HasPrefix in Hp.
    destruct s as [|a s]; [discriminate Hp |].
    simpl in Hp. destruct (Ascii.eqb_spec a "/"%char) as [-> | Hne].
    + simpl. rewrite Nat.sub_0_r. rewrite append_cons, append_nil.
      f_equal. symmetry. apply substring_all.
    + exfalso. simpl in Hp.
      destruct (String.eqb_spec (String a "") "/") as [Heq | _];
        [injection Heq as Heq; contradiction | discriminate Hp].
  - intros <-. right. split; reflexivity.
Qed.

(** X13.  When [parseGCSPath] returns no error, the URL parsed, its scheme
    is [gs], the bucket is its host and is not empty, and the object is not
    empty and is the URL's path with one leading slash removed.  When it
    returns an error, bucket and object are empty.  Every error of
    [complete] starts with [invalid GCS path: ]; a URL that does not parse
    has that prefix twice. *)
Theorem parseGCSPath_result (gcsPath : string) :
  (forall b o,
     Main.parseGCSPath gcsPath = (b, o, None) ->
     exists u,
       url_Parse gcsPath = Ok u
       /\ Scheme u = "gs"
       /\ b = Host u /\ b <> ""
       /\ o <> ""
       /\ (Path u = "/" +:+ o \/ (Path u = o /\ strings_HasPrefix o "/" = false)))
  /\ (forall b o err,
        Main.parseGCSPath gcsPath = (b, o, Some err) -> b = "" /\ o = "")
  /\ (forall opts err,
        Main.gcsPath opts = gcsPath ->
        snd (Main.complete opts) = Some err ->
        exists cause,
          err = ErrWrap "invalid GCS path: " cause
          /\ Main.parseGCSPath gcsPath = ("", "", Some cause)
          /\ (forall e, url_Parse gcsPath = Fail e ->
                cause = ErrWrap "invalid GCS path: " e)).
Proof.
  unfold Main.complete, Main.parseGCSPath.
  destruct (url_Parse gcsPath) as [u | e] eqn:Hparse.
  2: { split; [intros b o Heq; discriminate Heq |].
       split; [intros b o err Heq; now injection Heq as <- <- _ |].
       intros opts err -> Herr. rewrite Hparse in Herr. simpl in Herr.
       injection Herr as <-. eexists. split; [reflexivity |].
       split; [reflexivity |]. intros e' He'. now injection He' as <-. }
  destruct (String.eqb_spec (Scheme u) "gs") as [Hgs | Hgs]; simpl.
  2: { split; [intros b o Heq; discriminate Heq |].
       split; [intros b o err Heq; now injection Heq as <- <- _ |].
       intros opts err -> Herr. rewrite Hparse in Herr.
       destruct (String.eqb_spec (Scheme u) "gs"); [contradiction |].
       simpl in Herr. injection Herr as <-. eexists. split; [reflexivity |].
       split; [reflexivity |]. intros e' He'. discriminate He'. }
  destruct (String.eqb_spec (Host u) "") as [Hhost | Hhost].
  { split; [intros b o Heq; discriminate Heq |].
    split; [intros b o err Heq; now injection Heq as <- <- _ |].
    intros opts err -> Herr. rewrite Hparse in Herr.
    destruct (String.eqb_spec (Scheme u) "gs"); [| contradiction].
    destruct (String.eqb_spec (Host u) ""); [| contradiction].
    simpl in Herr. injection Herr as <-. eexists. split; [reflexivity |].
    split; [reflexivity |]. intros e' He'. discriminate He'. }
  destruct (String.eqb_spec (strings_TrimPrefix (Path u) "/") "") as [Hobj | Hobj].
  { split; [intros b o Heq; discriminate Heq |].
    split; [intros b o err Heq; now injection Heq as <- <- _ |].
    intros opts err -> Herr. rewrite Hparse in Herr.
    destruct (String.eqb_spec (Scheme u) "gs"); [| contradiction].
    destruct (String.eqb_spec (Host u) ""); [contradiction |].
    destruct (String.eqb_spec (strings_TrimPrefix (Path u) "/") "");
      [| contradiction].
    simpl in Herr. injection Herr as <-. eexists. split; [reflexivity |].
    split; [reflexivity |]. intros e' He'. discriminate He'. }
  split; [| split].
  - intros b o Heq. injection Heq as <- <-. exists u.
    repeat split; try assumption.
    destruct (TrimPrefix_slash (Path u) _ eq_refl) as [Hpath | [Hpath Hno]];
      [now left | right].
    split; [exact Hpath | now rewrite <- Hpath].
  - intros b o err Heq. discriminate Heq.
  - intros opts err -> Herr. rewrite Hparse in Herr.
    destruct (String.eqb_spec (Scheme u) "gs"); [| contradiction].
    destruct (String.eqb_spec (Host u) ""); [contradiction |].
    destruct (String.eqb_spec (strings_TrimPrefix (Path u) "/") "");
      [contradiction |].
    discriminate Herr.
Qed.

End MainFacts.

Lemma parseGCSPath_result_witness :
  exists u,
    @url_Parse Scenarios.parser "gs://ci-logs/run/ci-operator-metrics.json" = Ok u
    /\ Scheme u = "gs"
    /\ "ci-logs" = Host u /\ "ci-logs" <> ""
    /\ "run/ci-operator-metrics.json" <> ""
    /\ (Path u = "/" +:+ "run/ci-operator-metrics.json"
        \/ (Path u = "run/ci-operator-metrics.json"
            /\ strings_HasPrefix "run/ci-operator-metrics.json" "/" = false)).
Proof.
  destruct (@parseGCSPath_result Scenarios.parser
              "gs://ci-logs/run/ci-operator-metrics.json") as [Hok _].
  apply (Hok "ci-logs" "run/ci-operator-metrics.json"). reflexivity.
Defined.

Section CallKinds.
Context `{Shapes}.





End CallKinds.



(** ** The records and the predicates once more *)

Section KeyOrder.

Lemma json_keys_sublist (fields : list StructField) :
  sublist (json_keys fields) (map json_name fields).
Proof.
  unfold json_keys, json_members. rewrite map_map. simpl.
  induction fields as [|f fields IH]; simpl; [constructor |].
  destruct (kept f); simpl; [now apply sublist_skip | now apply sublist_cons].
Qed.

Lemma json_keys_snoc (fields : list StructField) (f : StructField) :
  kept f = true ->
  json_keys (fields ++ [f]) = json_keys fields ++ [json_name f].
Proof.
  intros Hkept. unfold json_keys, json_members.
  rewrite List.filter_app, !map_app. simpl. now rewrite Hkept.
Qed.

(** X15.  The keys of a serialized union record come in the order in which
    the fields are declared, none twice, and [timestamp] is the last key. *)
Theorem union_keys_in_declaration_order :
  (forall r : LeaseEventUnion.t,
     sublist (json_keys (LeaseEventUnion.fields r))
       ["name"; "slice"; "region"; "raw_lease_name"; "acquisition_duration_seconds";
        "release_duration_seconds"; "leases_remaining_at_acquisition";
        "leases_available_at_release"; "leases_total"; "released"; "error";
        "timestamp"]
     /\ NoDup (json_keys (LeaseEventUnion.fields r))
     /\ last (json_keys (LeaseEventUnion.fields r)) = Some "timestamp")
  /\ (forall r : ImageEventUnion.t,
        sublist (json_keys (ImageEventUnion.fields r))
          ["namespace"; "image_stream_name"; "full_name"; "tag_name";
           "full_tag_name"; "source_image"; "source_image_kind"; "start_time";
           "completion_time"; "duration_seconds"; "retry_count"; "success";
           "error"; "image_stream_details"; "additional_context"; "timestamp"]
        /\ NoDup (json_keys (ImageEventUnion.fields r))
        /\ last (json_keys (ImageEventUnion.fields r)) = Some "timestamp").
Proof.
  split; intros r.
  - pose proof (json_keys_sublist (LeaseEventUnion.fields r)) as Hsub.
    split; [exact Hsub |]. split.
    + eapply sublist_NoDup; [apply LeaseEventUnion_keys_distinct | exact Hsub].
    + change (LeaseEventUnion.fields r)
        with (removelast (LeaseEventUnion.fields r)
              ++ [Field "timestamp" false (VTime (LeaseEventUnion.Timestamp r))]).
      rewrite json_keys_snoc by reflexivity. apply last_snoc.
  - pose proof (json_keys_sublist (ImageEventUnion.fields r)) as Hsub.
    split; [exact Hsub |]. split.
    + eapply sublist_NoDup; [apply ImageEventUnion_keys_distinct | exact Hsub].
    + change (ImageEventUnion.fields r)
        with (removelast (ImageEventUnion.fields r)
              ++ [Field "timestamp" false (VTime (ImageEventUnion.Timestamp r))]).
      rewrite json_keys_snoc by reflexivity. apply last_snoc.
Qed.

End KeyOrder.

(** X16.  Admission looks at the end of the name only: a name that is
    admitted stays admitted with anything put in front of it, directory or
    not, and no name shorter than the 24 bytes of
    [ci-operator-metrics.json] is admitted. *)
Theorem IsMetricsFile_ignores_what_precedes :
  (forall p n, IsMetricsFile n = true -> IsMetricsFile (p +:+ n) = true)
  /\ (forall n, IsMetricsFile n = true -> (24 <= String.length n)%nat).
Proof.
  split.
  - intros p n Hn. unfold IsMetricsFile in *.
    apply strings_HasSuffix_iff in Hn as [q ->].
    apply strings_HasSuffix_iff. exists (p +:+ q). now rewrite append_assoc.
  - intros n Hn. unfold IsMetricsFile in Hn.
    apply strings_HasSuffix_iff in Hn as [q ->].
    rewrite length_append. simpl. lia.
Qed.

Lemma IsMetricsFile_ignores_what_precedes_witness :
  IsMetricsFile ("logs/4711/" +:+ "ci-operator-metrics.json") = true
  /\ (24 <= String.length "ci-operator-metrics.json")%nat.
Proof.
  destruct IsMetricsFile_ignores_what_precedes as [Hfront Hlength].
  split; [apply Hfront | apply Hlength]; reflexivity.
Defined.

(** X17.  [isAlreadyExistsError] sees through wrapping: however many times
    an error has been wrapped with [fmt.Errorf] and [%w], the answer is the
    answer for the error inside.  It is false for nil and for an error that
    is not a [googleapi.Error], and for a [googleapi.Error] it is true
    exactly when the code is 409. *)
Theorem isAlreadyExistsError_sees_through_wrapping :
  (forall prefixes err,
     isAlreadyExistsError (Some (wrap_all prefixes err))
     = isAlreadyExistsError (Some err))
  /\ isAlreadyExistsError None = false
  /\ (forall msg, isAlreadyExistsError (Some (ErrOther msg)) = false)
  /\ (forall code msg,
        isAlreadyExistsError (Some (ErrGoogleAPI code msg)) = true <-> code = 409).
Proof.
  split; [| split; [reflexivity | split; [reflexivity |]]].
  - intros prefixes err. induction prefixes as [|p prefixes IH]; [reflexivity |].
    simpl in *. exact IH.
  - intros code msg. simpl. unfold http_StatusConflict. apply Z.eqb_eq.
Qed.

Lemma validate_accepts_witness : Main.validate export_flags = None.
Proof.
  apply (proj2 (validate_accepts export_flags)).
  split; [discriminate | left; discriminate].
Defined.
